(** * Verification of the resume parsing pipeline (parser_api.py)

    A shallow embedding of [src/parser_api.py]: Python strings are lists of
    Unicode code points, the [re] patterns of the source are values of a
    small regular-expression syntax run by a backtracking matcher with
    Python's priorities (ordered alternation, greedy repetition), and the
    outside world (the PDF and DOCX libraries, [skills.txt], the spaCy
    model) is a record of outcomes handed to the functions. *)

From Stdlib Require Import String Ascii.
From Stdlib Require Import List NArith Arith Bool Lia Permutation.
Import ListNotations.
Local Open Scope list_scope.

Set Implicit Arguments.

(** ** Python strings *)

(** A [str] is a sequence of code points. *)
Definition pystr := list N.

(** String literals of the source, written as Rocq strings. *)
Fixpoint py (s : string) : pystr :=
  match s with
  | EmptyString => []
  | String a t => N_of_ascii a :: py t
  end.

Definition pystr_eqb (a b : pystr) : bool :=
  if list_eq_dec N.eq_dec a b then true else false.

Lemma pystr_eqb_eq a b : pystr_eqb a b = true <-> a = b.
Proof.
  unfold pystr_eqb. destruct (list_eq_dec N.eq_dec a b); split; congruence.
Qed.

(** Code points of the characters the source names. *)
Definition LF : N := 10.
Definition SP : N := 32.

Definition in_range (lo hi c : N) : bool := (lo <=? c)%N && (c <=? hi)%N.

Definition is_ascii (c : N) : bool := (c <? 128)%N.
Definition is_printable_ascii (c : N) : bool := in_range 32 126 c.
Definition is_upper (c : N) : bool := in_range 65 90 c.   (* [A-Z] *)
Definition is_lower (c : N) : bool := in_range 97 122 c.  (* [a-z] *)
Definition is_ascii_digit (c : N) : bool := in_range 48 57 c.  (* [0-9] *)
Definition is_ascii_letter (c : N) : bool := is_upper c || is_lower c.

(** [str.isspace] on one character, which is also what [\s] matches in a
    [str] pattern and what [strip()] and [split()] remove: the ASCII
    whitespace table of CPython (TAB..CR, FS..US, SPACE) and the Unicode
    white-space code points. *)
Definition isspace (c : N) : bool :=
  in_range 9 13 c || in_range 28 32 c
  || (c =? 133)%N || (c =? 160)%N || (c =? 5760)%N
  || in_range 8192 8202 c || (c =? 8232)%N || (c =? 8233)%N
  || (c =? 8239)%N || (c =? 8287)%N || (c =? 12288)%N.

(** [[a-z]] under [re.IGNORECASE] in a [str] pattern: the 52 ASCII letters
    and the four non-ASCII letters whose case folding is an ASCII letter
    (U+0130, U+0131, U+017F, U+212A). *)
Definition is_letter_ic (c : N) : bool :=
  is_ascii_letter c
  || (c =? 304)%N || (c =? 305)%N || (c =? 383)%N || (c =? 8490)%N.

Definition ascii_lower (c : N) : N := if is_upper c then (c + 32)%N else c.
Definition ascii_upper (c : N) : N := if is_lower c then (c - 32)%N else c.

(** The part of Python's runtime that the source relies on and that is a
    table or a choice of the interpreter: the Unicode database behind
    [str.lower], [str.title], [\d] and [\w], and the iteration order of a
    [set]. The laws are the facts about CPython that the proofs use. *)
Class PyRuntime := {
  str_lower : pystr -> pystr;
  str_title : pystr -> pystr;
  (** [\d] and [\w] on a code point above 127 *)
  uni_digit : N -> bool;
  uni_word : N -> bool;
  (** [list(set(l))] *)
  set_to_list : list pystr -> list pystr;
  str_lower_ascii :
    forall s, forallb is_ascii s = true -> str_lower s = map ascii_lower s;
  str_title_nonempty : forall s, s <> [] -> str_title s <> [];
  uni_digit_not_space : forall c, uni_digit c = true -> isspace c = false;
  set_to_list_nodup : forall l, NoDup (set_to_list l);
  set_to_list_in : forall l x, In x (set_to_list l) <-> In x l
}.

(** [\d]: a decimal digit. *)
Definition is_digit `{PyRuntime} (c : N) : bool :=
  if is_ascii c then is_ascii_digit c else uni_digit c.

(** [\w]: alphanumeric or underscore. *)
Definition is_word `{PyRuntime} (c : N) : bool :=
  if is_ascii c then is_ascii_letter c || is_ascii_digit c || (c =? 95)%N
  else uni_word c.

(** *** [strip], [split], [in] and [endswith] *)

Fixpoint lstrip (s : pystr) : pystr :=
  match s with
  | c :: t => if isspace c then lstrip t else s
  | [] => []
  end.

Definition rstrip (s : pystr) : pystr := rev (lstrip (rev s)).

(** [s.strip()] *)
Definition strip (s : pystr) : pystr := rstrip (lstrip s).

(** [s.split(sep)] for a one-character separator: never an empty list. *)
Fixpoint split_on (sep : N) (s : pystr) : list pystr :=
  match s with
  | [] => [[]]
  | c :: t =>
      if (c =? sep)%N then [] :: split_on sep t
      else match split_on sep t with
           | l :: ls => (c :: l) :: ls
           | [] => [[c]]
           end
  end.

(** [s.split()]: the maximal runs of non-whitespace characters. [cur] is
    the run being read, reversed. *)
Fixpoint split_ws_go (cur : pystr) (s : pystr) : list pystr :=
  match s with
  | [] => match cur with [] => [] | _ => [rev cur] end
  | c :: t =>
      if isspace c
      then match cur with [] => split_ws_go [] t
                     | _ => rev cur :: split_ws_go [] t end
      else split_ws_go (c :: cur) t
  end.

Definition split_ws (s : pystr) : list pystr := split_ws_go [] s.

Fixpoint starts_with (p s : pystr) : bool :=
  match p, s with
  | [], _ => true
  | a :: p', b :: s' => (a =? b)%N && starts_with p' s'
  | _ :: _, [] => false
  end.

(** [p in s] for strings. *)
Fixpoint contains (p s : pystr) : bool :=
  starts_with p s || match s with [] => false | _ :: t => contains p t end.

(** [s.endswith(p)] *)
Definition ends_with (p s : pystr) : bool := starts_with (rev p) (rev s).

(** ['\n'.join(l)] *)
Fixpoint join (sep : pystr) (l : list pystr) : pystr :=
  match l with
  | [] => []
  | [x] => x
  | x :: t => x ++ sep ++ join sep t
  end.

(** ** Regular expressions *)

(** The fragment of [re] syntax that the patterns of the source use. A
    character class is its membership test. *)
Inductive regex :=
| Eps
| Cls (f : N -> bool)                          (* a class, a literal *)
| Cat (r1 r2 : regex)
| Alt (r1 r2 : regex)                          (* r1|r2, r1 tried first *)
| Rep (r : regex) (lo : nat) (hi : option nat) (* greedy r{lo,hi} *)
| Grp (i : nat) (r : regex)                    (* capturing group i *)
| Wb.                                          (* \b *)

Declare Scope re_scope.
Delimit Scope re_scope with re.
Bind Scope re_scope with regex.
Infix ">>" := Cat (at level 40, left associativity) : re_scope.
Infix "<|>" := Alt (at level 50, left associativity) : re_scope.

Definition Chr (c : N) : regex := Cls (N.eqb c).
Definition Star (r : regex) : regex := Rep r 0 None.
Definition Plus (r : regex) : regex := Rep r 1 None.
Definition Opt (r : regex) : regex := Rep r 0 (Some 1).
Definition Times (n : nat) (r : regex) : regex := Rep r n (Some n).

(** A literal string; also [re.escape(s)], which makes every character of
    [s] stand for itself. *)
Fixpoint Lit (s : pystr) : regex :=
  match s with
  | [] => Eps
  | c :: t => (Chr c >> Lit t)%re
  end.

(** A position in the subject string: the characters already passed, most
    recent first, and those still ahead. *)
Record pos := mkpos { seen : pystr; rest : pystr }.

Definition caps := list (nat * pystr).

Definition step (p : pos) : option (N * pos) :=
  match rest p with
  | c :: t => Some (c, mkpos (c :: seen p) t)
  | [] => None
  end.

(** The text between two positions of one string. *)
Definition between (p q : pos) : pystr :=
  firstn (length (rest p) - length (rest q)) (rest p).

Section Matcher.
Context `{PyRuntime}.

(** [\b]: exactly one of the neighbouring characters is a word
    character, the ends of the string counting as non-word. *)
Definition word_before (p : pos) : bool :=
  match seen p with c :: _ => is_word c | [] => false end.
Definition word_after (p : pos) : bool :=
  match rest p with c :: _ => is_word c | [] => false end.
Definition boundary (p : pos) : bool := xorb (word_before p) (word_after p).

Variable A : Type.

Definition cont := pos -> caps -> option A.

(** Greedy repetition: at most [n] more iterations, at least [lo]; one
    more iteration is tried before stopping. *)
Fixpoint rep (mr : pos -> caps -> cont -> option A) (n lo : nat)
         (p : pos) (cs : caps) (k : cont) : option A :=
  match n with
  | 0 => match lo with 0 => k p cs | S _ => None end
  | S n' =>
      match mr p cs (fun p' cs' => rep mr n' (pred lo) p' cs' k) with
      | Some x => Some x
      | None => match lo with 0 => k p cs | S _ => None end
      end
  end.

(** The backtracking matcher, in continuation-passing style: [k] is the
    rest of the pattern, and the first success in priority order wins.
    Every repeated sub-pattern of the source consumes at least one
    character per iteration, so an unbounded repetition needs no more
    iterations than there are characters left. *)
Fixpoint rmatch (r : regex) (p : pos) (cs : caps) (k : cont) : option A :=
  match r with
  | Eps => k p cs
  | Cls f =>
      match step p with
      | Some (c, p') => if f c then k p' cs else None
      | None => None
      end
  | Cat r1 r2 => rmatch r1 p cs (fun p' cs' => rmatch r2 p' cs' k)
  | Alt r1 r2 =>
      match rmatch r1 p cs k with
      | Some x => Some x
      | None => rmatch r2 p cs k
      end
  | Rep r' lo hi =>
      rep (rmatch r')
          (match hi with Some h => h | None => length (rest p) end)
          lo p cs k
  | Grp i r' =>
      rmatch r' p cs (fun p' cs' => k p' ((i, between p p') :: cs'))
  | Wb => if boundary p then k p cs else None
  end.
End Matcher.

(** A match found at a position: how many characters it spans and what
    its groups captured. *)
Definition match_at `{PyRuntime} (r : regex) (p : pos) : option (nat * caps) :=
  rmatch r p [] (fun q cs => Some (length (rest p) - length (rest q), cs)).
Arguments match_at : simpl never.

(** ** Scanning: [re.search], [re.findall], [re.sub] *)

Section Scan.
Context `{PyRuntime}.

(** What group [i] captured; a group that took no part is empty. *)
Fixpoint group (i : nat) (cs : caps) : pystr :=
  match cs with
  | [] => []
  | (j, w) :: t => if Nat.eqb i j then w else group i t
  end.

Fixpoint ngroups (r : regex) : nat :=
  match r with
  | Eps | Cls _ | Wb => 0
  | Cat r1 r2 | Alt r1 r2 => ngroups r1 + ngroups r2
  | Rep r' _ _ => ngroups r'
  | Grp _ r' => S (ngroups r')
  end.

(** [re.search(r, s)] as a truth value: a match starts at some position,
    tried from the left. [sn] holds the characters before [s]. *)
Fixpoint search_go (r : regex) (sn s : pystr) {struct s} : bool :=
  match match_at r (mkpos sn s) with
  | Some _ => true
  | None =>
      match s with
      | [] => false
      | c :: t => search_go r (c :: sn) t
      end
  end.

Definition search (r : regex) (s : pystr) : bool := search_go r [] s.

(** The non-overlapping matches from left to right, each with its text
    and groups. [skip] counts the characters still covered by the last
    match. *)
Fixpoint scan (r : regex) (sn s : pystr) (skip : nat) {struct s}
  : list (pystr * caps) :=
  match s with
  | [] =>
      match skip with
      | 0 => match match_at r (mkpos sn []) with
             | Some (_, cs) => [([], cs)]
             | None => []
             end
      | S _ => []
      end
  | c :: t =>
      match skip with
      | S k => scan r (c :: sn) t k
      | 0 =>
          match match_at r (mkpos sn s) with
          | Some (n, cs) => (firstn n s, cs) :: scan r (c :: sn) t (pred n)
          | None => scan r (c :: sn) t 0
          end
      end
  end.

(** [re.findall(r, s)]: the whole match when the pattern has no group,
    the group when it has one (no pattern of the source has more). *)
Definition findall (r : regex) (s : pystr) : list pystr :=
  map (fun m => match ngroups r with 0 => fst m | S _ => group 1 (snd m) end)
      (scan r [] s 0).

(** [re.sub(r, repl, s)]: text outside the matches is copied, each match
    is replaced by [repl] of its groups. *)
Fixpoint sub_go (r : regex) (repl : caps -> pystr) (sn s : pystr)
         (skip : nat) {struct s} : pystr :=
  match s with
  | [] =>
      match skip with
      | 0 => match match_at r (mkpos sn []) with
             | Some (_, cs) => repl cs
             | None => []
             end
      | S _ => []
      end
  | c :: t =>
      match skip with
      | S k => sub_go r repl (c :: sn) t k
      | 0 =>
          match match_at r (mkpos sn s) with
          | Some (0, cs) => repl cs ++ c :: sub_go r repl (c :: sn) t 0
          | Some (S n, cs) => repl cs ++ sub_go r repl (c :: sn) t n
          | None => c :: sub_go r repl (c :: sn) t 0
          end
      end
  end.

Definition sub (r : regex) (repl : caps -> pystr) (s : pystr) : pystr :=
  sub_go r repl [] s 0.
End Scan.

(** ** The patterns of parser_api.py *)

Definition ch (a : ascii) : N := N_of_ascii a.

Section Patterns.
Context `{PyRuntime}.

Definition ws : regex := Cls isspace.          (* \s *)
Definition digit : regex := Cls is_digit.      (* \d *)
Definition upper : regex := Cls is_upper.      (* [A-Z] *)
Definition lower : regex := Cls is_lower.      (* [a-z] *)

(** [([a-z])-\s*\n\s*([a-z])] with [re.IGNORECASE] *)
Definition hyphen_re : regex :=
  (Grp 1 (Cls is_letter_ic) >> Chr (ch "-") >> Star ws >> Chr LF >> Star ws
   >> Grp 2 (Cls is_letter_ic))%re.

(** [\n\s*\d+\s*\n] *)
Definition pagenum_re : regex :=
  (Chr LF >> Star ws >> Plus digit >> Star ws >> Chr LF)%re.

(** [[^\x00-\x7F]+] *)
Definition nonascii_re : regex :=
  Plus (Cls (fun c => negb (in_range 0 127 c))).

(** [\s+] *)
Definition spaces_re : regex := Plus ws.

(** [[\w\.-]+@[\w\.-]+] *)
Definition email_char (c : N) : bool :=
  is_word c || (c =? ch ".")%N || (c =? ch "-")%N.
Definition email_re : regex :=
  (Plus (Cls email_char) >> Chr (ch "@") >> Plus (Cls email_char))%re.

(** [[-\s]] *)
Definition phone_sep (c : N) : bool := (c =? ch "-")%N || isspace c.

(** [(\d{3}[-\s]?\d{3}[-\s]?\d{4}|\(\d{3}\)\s*\d{3}[-\s]?\d{4}|\d{10,15})] *)
Definition phone_re : regex :=
  Grp 1
    ((Times 3 digit >> Opt (Cls phone_sep) >> Times 3 digit
      >> Opt (Cls phone_sep) >> Times 4 digit)
     <|> (Chr (ch "(") >> Times 3 digit >> Chr (ch ")") >> Star ws
          >> Times 3 digit >> Opt (Cls phone_sep) >> Times 4 digit)
     <|> Rep digit 10 (Some 15))%re.

(** [\D] *)
Definition nondigit_re : regex := Cls (fun c => negb (is_digit c)).

(** The classes of the URL pattern: [[$-_@.&+]] holds the range from
    [$] to [_]; in [[!*\\(\\),]] the doubled backslash is one. *)
Definition url_punct (c : N) : bool :=
  in_range (ch "$") (ch "_") c || (c =? ch "@")%N || (c =? ch ".")%N
  || (c =? ch "&")%N || (c =? ch "+")%N.
Definition url_paren (c : N) : bool :=
  (c =? ch "!")%N || (c =? ch "*")%N || (c =? 92)%N || (c =? ch "(")%N
  || (c =? ch ")")%N || (c =? ch ",")%N.
Definition is_hex (c : N) : bool :=
  is_ascii_digit c || in_range (ch "a") (ch "f") c
  || in_range (ch "A") (ch "F") c.

(** [http[s]?://(?:[a-zA-Z]|[0-9]|[$-_@.&+]|[!*\\(\\),]|(?:%[0-9a-fA-F][0-9a-fA-F]))+] *)
Definition url_re : regex :=
  (Lit (py "http") >> Opt (Chr (ch "s")) >> Lit (py "://")
   >> Plus (Cls is_ascii_letter <|> Cls is_ascii_digit <|> Cls url_punct
            <|> Cls url_paren
            <|> (Chr (ch "%") >> Cls is_hex >> Cls is_hex)))%re.

(** [[|:,-]] *)
Definition name_sep (c : N) : bool :=
  (c =? ch "|")%N || (c =? ch ":")%N || (c =? ch ",")%N || (c =? ch "-")%N.
Definition name_sep_re : regex := Cls name_sep.

(** [[A-Z][a-z]+ [A-Z][a-z]+(?: [A-Z][a-z]+)?] *)
Definition name_re : regex :=
  (upper >> Plus lower >> Chr SP >> upper >> Plus lower
   >> Opt (Chr SP >> upper >> Plus lower))%re.

(** [r'\b' + re.escape(skill) + r'\b'] *)
Definition skill_re (skill : pystr) : regex := (Wb >> Lit skill >> Wb)%re.
End Patterns.

(** ** The outside world *)

(** What opening and reading a document gives: its content, a
    [FileNotFoundError], or any other exception with its message. *)
Inductive opened (A : Type) :=
| Opened (content : A)
| FileNotFound
| Failed (message : pystr).
Arguments FileNotFound {A}.
Arguments Failed {A} message.

(** A span of [doc.ents]. *)
Record span := mkspan { ent_text : pystr; ent_label : pystr }.

Record world := {
  (** [pdfplumber.open(path)]: for each page what [extract_text()] returns *)
  pdf_pages : pystr -> opened (list (option pystr));
  (** [Document(path)]: the text of each paragraph *)
  docx_paragraphs : pystr -> opened (list pystr);
  (** the lines of [skills.txt], [None] when it is missing *)
  skills_txt : option (list pystr);
  (** the spaCy model, [None] when it could not be loaded *)
  nlp : option (pystr -> list span)
}.

(** Values of the result record. *)
Inductive value :=
| VNone
| VStr (s : pystr)
| VInt (n : nat)
| VList (l : list pystr)
| VDict (d : list (pystr * pystr)).

(** A [dict], in insertion order. *)
Definition dict := list (pystr * value).

Definition keys (d : dict) : list pystr := map fst d.

Definition opt_str (o : option pystr) : value :=
  match o with Some s => VStr s | None => VNone end.

(** ** The functions of parser_api.py *)

Section Parser.
Context `{PyRuntime}.

(** Truthiness of what [page.extract_text()] returns. *)
Definition page_text (p : option pystr) : option pystr :=
  match p with
  | Some (c :: t) => Some (c :: t)
  | Some [] | None => None
  end.

Fixpoint page_texts (pages : list (option pystr)) : list pystr :=
  match pages with
  | [] => []
  | p :: t => match page_text p with
              | Some x => x :: page_texts t
              | None => page_texts t
              end
  end.

Definition extract_text_from_pdf (w : world) (file_path : pystr) : pystr :=
  match pdf_pages w file_path with
  | Opened pages => join [LF] (page_texts pages)
  | FileNotFound => py "Error: File not found."
  | Failed e => py "Error extracting PDF: " ++ e
  end.

Definition extract_text_from_docx (w : world) (file_path : pystr) : pystr :=
  match docx_paragraphs w file_path with
  | Opened paragraphs => join [LF] paragraphs
  | FileNotFound => py "Error: File not found."
  | Failed e => py "Error extracting DOCX: " ++ e
  end.

Definition clean_resume_text (raw_text : pystr) : pystr :=
  match raw_text with
  | [] => []
  | _ =>
      let text := sub hyphen_re (fun cs => group 1 cs ++ group 2 cs) raw_text in
      let text := sub pagenum_re (fun _ => [LF]) text in
      let text := sub nonascii_re (fun _ => [SP]) text in
      let text := strip (sub spaces_re (fun _ => [SP]) text) in
      str_lower text
  end.

Definition extract_email (text : pystr) : option pystr :=
  match findall email_re text with
  | e :: _ => Some e
  | [] => None
  end.

Definition phone_len_ok (p : pystr) : bool :=
  (10 <=? length p) && (length p <=? 15).

Definition extract_phone_number (text : pystr) : option pystr :=
  let phone := findall phone_re text in
  let cleaned_phone := map (sub nondigit_re (fun _ => [])) phone in
  find phone_len_ok cleaned_phone.

Definition extract_urls (text : pystr) : list pystr :=
  let urls := findall url_re text in
  filter (fun u => contains (py "linkedin") (str_lower u)
                   || contains (py "github") (str_lower u)) urls.

Definition name_sentinel : pystr := py "N/A (Failed Fallback)".

Definition extract_name (raw_text : pystr) : pystr :=
  let lines := split_on LF (strip raw_text) in
  let name_candidate := strip (nth 0 lines []) in
  let name := strip (sub name_sep_re (fun _ => []) name_candidate) in
  if (5 <? length (split_ws name)) || (length name <? 4) then
    match findall name_re raw_text with
    | n :: _ => str_title n
    | [] => name_sentinel
    end
  else str_title name.

Definition skills_warning : pystr :=
  py "WARNING: skills.txt missing. Cannot extract skills.".

Definition extract_skills (w : world) (cleaned_text : pystr) : list pystr :=
  match skills_txt w with
  | None => [skills_warning]
  | Some lines =>
      let skill_list := map (fun line => str_lower (strip line)) lines in
      set_to_list
        (filter (fun skill => search (skill_re skill) cleaned_text) skill_list)
  end.

Definition ORG : pystr := py "ORG".
Definition DATE : pystr := py "DATE".

(** The two tests of the loop over [doc.ents]. *)
Definition ent_relevant (e : span) : bool :=
  pystr_eqb (ent_label e) ORG || pystr_eqb (ent_label e) DATE
  || contains (py "education") (str_lower (ent_text e))
  || contains (py "experience") (str_lower (ent_text e)).

Definition ent_substantial (e : span) : bool :=
  (1 <? length (split_ws (strip (ent_text e))))
  || pystr_eqb (ent_label e) DATE.

Definition ent_format (e : span) : pystr :=
  strip (ent_text e) ++ py " (" ++ ent_label e ++ py ")".

Definition nlp_error : value :=
  VDict [(py "error", py "NLP model not loaded. Check setup.")].

Definition extract_nlp_entities (w : world) (cleaned_text : pystr) : value :=
  match nlp w with
  | None => nlp_error
  | Some model =>
      let ents := model cleaned_text in
      let education_and_experience_entities :=
        map ent_format
            (filter (fun e => ent_relevant e && ent_substantial e) ents) in
      VList (firstn 5 (set_to_list education_and_experience_entities))
  end.

Definition unsupported : pystr :=
  py "Unsupported file type. Must be PDF or DOCX.".

Definition assemble (w : world) (raw_text : pystr) : dict :=
  match contains (py "Error") raw_text with
  | true => [(py "error", VStr raw_text)]
  | false =>
      let cleaned_text := clean_resume_text raw_text in
      [ (py "name", VStr (extract_name raw_text));
        (py "email", opt_str (extract_email cleaned_text));
        (py "phone", opt_str (extract_phone_number cleaned_text));
        (py "urls", VList (extract_urls cleaned_text));
        (py "skills", VList (extract_skills w cleaned_text));
        (py "nlp_entities", extract_nlp_entities w cleaned_text);
        (py "raw_text_length", VInt (length raw_text)) ]
  end.

Definition parse_resume (w : world) (file_path : pystr) : dict :=
  if ends_with (py ".pdf") (str_lower file_path) then
    assemble w (extract_text_from_pdf w file_path)
  else if ends_with (py ".docx") (str_lower file_path) then
    assemble w (extract_text_from_docx w file_path)
  else [(py "error", VStr unsupported)].
End Parser.

(** ** A runtime to compute with

    On ASCII text every runtime agrees with this one: case mapping of the
    ASCII letters, no digit or word character above 127, and a set listed
    in the order its elements were first added. *)

Fixpoint title_go (prev_cased : bool) (s : pystr) : pystr :=
  match s with
  | [] => []
  | c :: t =>
      if is_ascii_letter c
      then (if prev_cased then ascii_lower c else ascii_upper c) :: title_go true t
      else c :: title_go false t
  end.

Lemma title_go_nonempty b s : s <> [] -> title_go b s <> [].
Proof.
  destruct s as [|c t]; [congruence|]. intros _. simpl.
  destruct (is_ascii_letter c); discriminate.
Qed.

Definition dedup (l : list pystr) : list pystr :=
  rev (nodup (list_eq_dec N.eq_dec) (rev l)).

Lemma dedup_nodup l : NoDup (dedup l).
Proof.
  unfold dedup. apply NoDup_rev, NoDup_nodup.
Qed.

Lemma dedup_in l x : In x (dedup l) <-> In x l.
Proof.
  unfold dedup. rewrite <- in_rev, nodup_In, <- in_rev. tauto.
Qed.

#[export] Instance ascii_runtime : PyRuntime := {|
  str_lower := map ascii_lower;
  str_title := title_go false;
  uni_digit := fun _ => false;
  uni_word := fun _ => false;
  set_to_list := dedup;
  str_lower_ascii := fun s _ => eq_refl;
  str_title_nonempty := title_go_nonempty false;
  uni_digit_not_space := fun c (e : false = true) =>
    match Bool.diff_false_true e with end;
  set_to_list_nodup := dedup_nodup;
  set_to_list_in := dedup_in
|}.

(** ** What a pattern denotes *)

Section Semantics.
Context `{PyRuntime}.

Fixpoint iter (n : nat) (R : pos -> pos -> Prop) (p q : pos) : Prop :=
  match n with
  | 0 => q = p
  | S n' => exists m, R p m /\ iter n' R m q
  end.

Definition within (n : nat) (hi : option nat) : Prop :=
  match hi with Some h => n <= h | None => True end.

(** [den r p q]: read from position [p], the pattern [r] can end at
    position [q], whatever the priorities. *)
Fixpoint den (r : regex) (p q : pos) : Prop :=
  match r with
  | Eps => q = p
  | Cls f => exists c, step p = Some (c, q) /\ f c = true
  | Cat r1 r2 => exists m, den r1 p m /\ den r2 m q
  | Alt r1 r2 => den r1 p q \/ den r2 p q
  | Rep r' lo hi => exists n, lo <= n /\ within n hi /\ iter n (den r') p q
  | Grp _ r' => den r' p q
  | Wb => boundary p = true /\ q = p
  end.

(** The least number of characters a match of [r] spans. *)
Fixpoint min_len (r : regex) : nat :=
  match r with
  | Eps | Wb => 0
  | Cls _ => 1
  | Cat r1 r2 => min_len r1 + min_len r2
  | Alt r1 r2 => Nat.min (min_len r1) (min_len r2)
  | Rep r' lo _ => lo * min_len r'
  | Grp _ r' => min_len r'
  end.

(** Every unbounded repetition is of a pattern that consumes. *)
Fixpoint productive (r : regex) : bool :=
  match r with
  | Eps | Wb | Cls _ => true
  | Cat r1 r2 | Alt r1 r2 => productive r1 && productive r2
  | Rep r' _ hi =>
      productive r' && match hi with Some _ => true | None => 0 <? min_len r' end
  | Grp _ r' => productive r'
  end.

(** [q] is [p] moved forward over [w]. *)
Definition advance (w : pystr) (p q : pos) : Prop :=
  rest p = w ++ rest q /\ seen q = rev w ++ seen p.

Lemma advance_refl p : advance [] p p.
Proof. split; reflexivity. Qed.

Lemma advance_trans u v p m q :
  advance u p m -> advance v m q -> advance (u ++ v) p q.
Proof.
  intros [a b] [c d]. split.
  - rewrite a, c, app_assoc. reflexivity.
  - rewrite d, b, rev_app_distr, app_assoc. reflexivity.
Qed.

Lemma step_advance p c q : step p = Some (c, q) -> advance [c] p q.
Proof.
  unfold step. destruct p as [sn [|d t]]; simpl; [discriminate|].
  intros e. injection e as <- <-. split; reflexivity.
Qed.

Lemma advance_length w p q :
  advance w p q -> length (rest p) = length w + length (rest q).
Proof. intros [a _]. rewrite a, length_app. reflexivity. Qed.

Lemma advance_between w p q : advance w p q -> between p q = w.
Proof.
  intros a. unfold between. rewrite (advance_length a).
  replace (length w + length (rest q) - length (rest q)) with (length w) by lia.
  destruct a as [a _]. rewrite a. rewrite firstn_app, Nat.sub_diag, firstn_all.
  simpl. apply app_nil_r.
Qed.

Lemma iter_span (R : pos -> pos -> Prop) (d : nat) :
  (forall p q, R p q -> exists w, advance w p q /\ d <= length w) ->
  forall n p q, iter n R p q -> exists w, advance w p q /\ n * d <= length w.
Proof.
  intros HR. induction n as [|n IH]; simpl; intros p q.
  - intros ->. exists []. split; [apply advance_refl | simpl; lia].
  - intros (m & pm & mq). destruct (HR _ _ pm) as (u & au & lu).
    destruct (IH _ _ mq) as (v & av & lv).
    exists (u ++ v). split; [eapply advance_trans; eassumption|].
    rewrite length_app. lia.
Qed.

(** A match is a stretch of the subject, at least [min_len] long. *)
Lemma den_span r : forall p q,
  den r p q -> exists w, advance w p q /\ min_len r <= length w.
Proof.
  induction r as [|f|r1 IH1 r2 IH2|r1 IH1 r2 IH2|r IH lo hi|i r IH|];
    simpl; intros p q.
  - intros ->. exists []. split; [apply advance_refl | simpl; lia].
  - intros (c & st & _). exists [c]. split; [apply step_advance, st | simpl; lia].
  - intros (m & d1 & d2). destruct (IH1 _ _ d1) as (u & au & lu).
    destruct (IH2 _ _ d2) as (v & av & lv). exists (u ++ v).
    split; [eapply advance_trans; eassumption | rewrite length_app; lia].
  - intros [d|d]; [destruct (IH1 _ _ d) as (w & a & l)
                  | destruct (IH2 _ _ d) as (w & a & l)];
      exists w; split; trivial; lia.
  - intros (n & ln & _ & it).
    destruct (iter_span _ IH _ _ _ it) as (w & a & l).
    exists w. split; trivial. nia.
  - apply IH.
  - intros [_ ->]. exists []. split; [apply advance_refl | simpl; lia].
Qed.

Section Engine.
Variable A : Type.

(** What [rmatch] returns came out of the continuation at a position
    the pattern denotes. *)
Definition sound_at (R : pos -> pos -> Prop)
           (mr : pos -> caps -> cont A -> option A) : Prop :=
  forall p cs k x, mr p cs k = Some x ->
    exists q cs', R p q /\ k q cs' = Some x.

(** If the pattern can end where the continuation succeeds, [rmatch]
    succeeds. *)
Definition complete_at (R : pos -> pos -> Prop)
           (mr : pos -> caps -> cont A -> option A) : Prop :=
  forall p q cs (k : cont A), R p q -> (forall cs', k q cs' <> None) ->
    mr p cs k <> None.

Lemma rep_sound R mr : sound_at R mr ->
  forall n lo p cs k x, rep mr n lo p cs k = Some x ->
    exists j q cs', lo <= j /\ j <= n /\ iter j R p q /\ k q cs' = Some x.
Proof.
  intros HS. induction n as [|n IH]; simpl; intros lo p cs k x.
  - destruct lo; [|discriminate]. intros e.
    exists 0, p, cs. simpl. auto.
  - destruct (mr p cs _) as [y|] eqn:e.
    + intros [= ->]. apply HS in e. destruct e as (m & cs1 & pm & e).
      apply IH in e. destruct e as (j & q & cs' & lj & jn & it & e).
      exists (S j), q, cs'. repeat split; try lia; trivial.
      simpl. eauto.
    + destruct lo; [|discriminate]. intros e'.
      exists 0, p, cs. simpl. repeat split; trivial; lia.
Qed.

Lemma rep_complete R mr : complete_at R mr ->
  forall n j lo p q cs (k : cont A),
    lo <= j -> j <= n -> iter j R p q -> (forall cs', k q cs' <> None) ->
    rep mr n lo p cs k <> None.
Proof.
  intros C. induction n as [|n IH]; simpl; intros j lo p q cs k lj jn it ok.
  - assert (j = 0) by lia. subst j. assert (lo = 0) by lia. subst lo.
    simpl in it. subst q. apply ok.
  - destruct j as [|j]; simpl in it.
    + subst q. assert (lo = 0) by lia. subst lo.
      destruct (mr p cs _); [discriminate | apply ok].
    + destruct it as (m & pm & it).
      assert (mr p cs (fun p' cs' => rep mr n (pred lo) p' cs' k) <> None) as ne.
      { apply (C p m); trivial. intros cs'.
        apply (IH j (pred lo) m q); trivial; lia. }
      destruct (mr p cs _); [discriminate | congruence].
Qed.

Theorem rmatch_sound r : sound_at (den r) (rmatch (A:=A) r).
Proof.
  induction r as [|f|r1 IH1 r2 IH2|r1 IH1 r2 IH2|r IH lo hi|i r IH|];
    intros p cs k x; simpl.
  - intros e. exists p, cs. auto.
  - destruct (step p) as [[c p']|] eqn:st; [|discriminate].
    destruct (f c) eqn:fc; [|discriminate]. intros e.
    exists p', cs. split; trivial. exists c. auto.
  - intros e. apply IH1 in e. destruct e as (m & cs1 & d1 & e).
    apply IH2 in e. destruct e as (q & cs2 & d2 & e).
    exists q, cs2. split; trivial. exists m. auto.
  - destruct (rmatch r1 p cs k) as [y|] eqn:e1.
    + intros [= ->]. apply IH1 in e1. destruct e1 as (q & cs' & d & e).
      exists q, cs'. auto.
    + intros e. apply IH2 in e. destruct e as (q & cs' & d & e).
      exists q, cs'. auto.
  - intros e. apply (rep_sound IH) in e.
    destruct e as (j & q & cs' & lj & jn & it & e).
    exists q, cs'. split; trivial. exists j. repeat split; trivial.
    destruct hi; simpl; trivial.
  - intros e. apply IH in e. destruct e as (q & cs' & d & e).
    exists q. eauto.
  - destruct (boundary p) eqn:b; [|discriminate]. intros e.
    exists p, cs. auto.
Qed.

Theorem rmatch_complete r :
  productive r = true -> complete_at (den r) (rmatch (A:=A) r).
Proof.
  induction r as [|f|r1 IH1 r2 IH2|r1 IH1 r2 IH2|r IH lo hi|i r IH|];
    simpl; intros pr p q cs k d ok.
  - subst q. apply ok.
  - destruct d as (c & st & fc). rewrite st, fc. apply ok.
  - apply andb_prop in pr. destruct pr as [pr1 pr2].
    destruct d as (m & d1 & d2).
    apply (IH1 pr1 p m); trivial.
    intros cs'. apply (IH2 pr2 m q); trivial.
  - apply andb_prop in pr. destruct pr as [pr1 pr2].
    destruct (rmatch r1 p cs k) eqn:e1; [discriminate|].
    destruct d as [d|d]; [exfalso; revert e1; apply (IH1 pr1 p q); trivial|].
    apply (IH2 pr2 p q); trivial.
  - apply andb_prop in pr. destruct pr as [pr1 pr2].
    destruct d as (j & lj & jh & it).
    apply (rep_complete (IH pr1)) with (j := j) (q := q); trivial.
    destruct hi as [h|]; simpl in jh; trivial.
    apply Nat.ltb_lt in pr2.
    destruct (iter_span _ (den_span r) _ _ _ it) as (w & a & l).
    rewrite (advance_length a). nia.
  - apply (IH pr p q); trivial.
  - destruct d as [b ->]. rewrite b. apply ok.
Qed.
End Engine.

(** [match_at] finds a match exactly where the pattern denotes one, and
    the match it reports is one of them. *)
Lemma match_at_sound r p n cs :
  match_at r p = Some (n, cs) ->
  exists q w, den r p q /\ advance w p q /\ length w = n.
Proof.
  unfold match_at. intros e. apply rmatch_sound in e.
  destruct e as (q & cs' & d & e). injection e as <- <-.
  destruct (den_span r _ _ d) as (w & a & _).
  exists q, w. repeat split; trivial; try apply a.
  rewrite (advance_length a). lia.
Qed.

Lemma match_at_complete r p q :
  productive r = true -> den r p q -> match_at r p <> None.
Proof.
  intros pr d. unfold match_at. apply (rmatch_complete _ pr p q); trivial.
  discriminate.
Qed.

Lemma match_at_none r p :
  productive r = true -> (match_at r p = None <-> forall q, ~ den r p q).
Proof.
  intros pr. split.
  - intros e q d. revert e. eapply match_at_complete; eassumption.
  - intros nd. destruct (match_at r p) as [[n cs]|] eqn:e; trivial.
    apply match_at_sound in e. destruct e as (q & _ & d & _).
    destruct (nd q d).
Qed.

Lemma match_at_min_len r p n cs :
  match_at r p = Some (n, cs) -> min_len r <= n.
Proof.
  unfold match_at. intros e. apply rmatch_sound in e.
  destruct e as (q & cs' & d & e). injection e as <- <-.
  destruct (den_span r _ _ d) as (w & a & l).
  rewrite (advance_length a). lia.
Qed.
End Semantics.

(** ** Facts about scanning *)

Section ScanFacts.
Context `{PyRuntime}.

(** The position [i] characters into [s], with [sn] before it. *)
Definition at_index (sn s : pystr) (i : nat) : pos :=
  mkpos (rev (firstn i s) ++ sn) (skipn i s).

Lemma at_index_0 sn s : at_index sn s 0 = mkpos sn s.
Proof. reflexivity. Qed.

Lemma at_index_S sn c t i :
  at_index sn (c :: t) (S i) = at_index (c :: sn) t i.
Proof.
  unfold at_index. simpl. rewrite <- app_assoc. reflexivity.
Qed.

Lemma at_index_split sn u v : at_index sn (u ++ v) (length u) = mkpos (rev u ++ sn) v.
Proof.
  unfold at_index. rewrite firstn_app, Nat.sub_diag, firstn_all. simpl.
  rewrite app_nil_r, skipn_app, Nat.sub_diag, skipn_all. reflexivity.
Qed.

(** No match starts anywhere in [s]. *)
Definition matchless (r : regex) (sn s : pystr) : Prop :=
  forall i, i <= length s -> match_at r (at_index sn s i) = None.

Lemma matchless_tail r sn c t :
  matchless r sn (c :: t) -> matchless r (c :: sn) t.
Proof.
  intros m i li. rewrite <- at_index_S. apply m. simpl. lia.
Qed.

Lemma matchless_cons r sn c t :
  match_at r (mkpos sn (c :: t)) = None -> matchless r (c :: sn) t ->
  matchless r sn (c :: t).
Proof.
  intros e m [|i] li; [exact e|]. rewrite at_index_S. apply m.
  simpl in li. lia.
Qed.

Lemma search_go_false r : forall s sn,
  search_go r sn s = false <-> matchless r sn s.
Proof.
  induction s as [|c t IH]; intros sn; simpl.
  - split.
    + destruct (match_at r (mkpos sn [])) eqn:e; [discriminate|].
      intros _ i li. assert (i = 0) by (simpl in li; lia). subst. exact e.
    + intros m. rewrite <- at_index_0, (m 0); simpl; trivial.
  - split.
    + destruct (match_at r (mkpos sn (c :: t))) eqn:e; [discriminate|].
      intros e'. apply matchless_cons; trivial. apply IH, e'.
    + intros m. rewrite <- at_index_0, (m 0) by (simpl; lia).
      apply IH, matchless_tail, m.
Qed.

Lemma search_go_true r s sn :
  search_go r sn s = true <->
  exists i n cs, i <= length s /\ match_at r (at_index sn s i) = Some (n, cs).
Proof.
  split.
  - intros e. destruct (search_go r sn s) eqn:e'; [|discriminate]. clear e.
    revert sn e'. induction s as [|c t IH]; intros sn; simpl.
    + destruct (match_at r (mkpos sn [])) as [[n cs]|] eqn:e; [|discriminate].
      intros _. exists 0, n, cs. split; trivial.
    + destruct (match_at r (mkpos sn (c :: t))) as [[n cs]|] eqn:e.
      * intros _. exists 0, n, cs. split; [lia | exact e].
      * intros e'. destruct (IH _ e') as (i & n & cs & li & m).
        exists (S i), n, cs. rewrite at_index_S. split; [simpl; lia | exact m].
  - intros (i & n & cs & li & m).
    destruct (search_go r sn s) eqn:e; trivial.
    apply search_go_false in e. rewrite (e i li) in m. discriminate.
Qed.

(** Without a match, [re.sub] returns its subject. *)
Lemma sub_go_matchless r repl : forall s sn,
  matchless r sn s -> sub_go r repl sn s 0 = s.
Proof.
  induction s as [|c t IH]; intros sn m; simpl.
  - rewrite <- at_index_0, (m 0); simpl; trivial.
  - rewrite <- at_index_0, (m 0) by (simpl; lia).
    f_equal. apply IH, matchless_tail, m.
Qed.

Lemma scan_matchless r : forall s sn,
  scan r sn s 0 = [] <-> matchless r sn s.
Proof.
  induction s as [|c t IH]; intros sn; simpl.
  - split.
    + destruct (match_at r (mkpos sn [])) as [[n cs]|] eqn:e; [discriminate|].
      intros _ i li. assert (i = 0) by (simpl in li; lia). subst. exact e.
    + intros m. rewrite <- at_index_0, (m 0); simpl; trivial.
  - split.
    + destruct (match_at r (mkpos sn (c :: t))) as [[n cs]|] eqn:e;
        [discriminate|].
      intros e'. apply matchless_cons; trivial. apply IH, e'.
    + intros m. rewrite <- at_index_0, (m 0) by (simpl; lia).
      apply IH, matchless_tail, m.
Qed.

(** The first match that [scan] reports is the leftmost one. *)
Lemma scan_head r : forall s sn w cs l,
  scan r sn s 0 = (w, cs) :: l ->
  exists i n, i <= length s
    /\ match_at r (at_index sn s i) = Some (n, cs)
    /\ w = firstn n (skipn i s)
    /\ forall j, j < i -> match_at r (at_index sn s j) = None.
Proof.
  induction s as [|c t IH]; intros sn w cs l; simpl.
  - destruct (match_at r (mkpos sn [])) as [[n cs0]|] eqn:e; [|discriminate].
    intros [= <- <- <-]. exists 0, n. repeat split; trivial.
    + rewrite firstn_nil. reflexivity.
    + intros j lj. lia.
  - destruct (match_at r (mkpos sn (c :: t))) as [[n cs0]|] eqn:e.
    + intros [= <- <- <-]. exists 0, n. repeat split; trivial; lia.
    + intros e'. destruct (IH _ _ _ _ e') as (i & n & li & m & ew & first).
      exists (S i), n. rewrite at_index_S. repeat split; trivial.
      * simpl. lia.
      * intros [|j] lj; [exact e|]. rewrite at_index_S. apply first. lia.
Qed.

(** *** One class, and a run of one class *)

Lemma match_at_cls f sn s :
  match_at (Cls f) (mkpos sn s) =
  match s with
  | c :: _ => if f c then Some (1, []) else None
  | [] => None
  end.
Proof.
  unfold match_at. simpl. unfold step. simpl. destruct s as [|c t]; trivial.
  destruct (f c); trivial. do 2 f_equal. cbn [rest length]. lia.
Qed.

(** Replacing each character of a class by nothing filters it out. *)
Lemma sub_cls_delete f : forall s sn,
  sub_go (Cls f) (fun _ => []) sn s 0 = filter (fun c => negb (f c)) s.
Proof.
  induction s as [|c t IH]; intros sn; simpl.
  - reflexivity.
  - rewrite match_at_cls. destruct (f c); simpl; rewrite IH; reflexivity.
Qed.

(** The length of the run of [f] that starts [s]. *)
Fixpoint run (f : N -> bool) (s : pystr) : nat :=
  match s with
  | c :: t => if f c then S (run f t) else 0
  | [] => 0
  end.

Lemma run_le f s : run f s <= length s.
Proof. induction s as [|c t IH]; simpl; [|destruct (f c)]; simpl; lia. Qed.

Lemma rep_cls f (L : nat) : forall n lo p cs,
  rep (rmatch (Cls f)) n lo p cs
      (fun q cs' => Some (L - length (rest q), cs')) =
  let j := Nat.min n (run f (rest p)) in
  if lo <=? j then Some (L - (length (rest p) - j), cs) else None.
Proof.
  induction n as [|n IH]; intros lo p cs; simpl.
  - destruct lo; simpl; trivial. rewrite Nat.sub_0_r. reflexivity.
  - unfold step. destruct p as [sn [|c t]]; simpl.
    + destruct lo; simpl; trivial.
    + destruct (f c) eqn:fc.
      * rewrite IH. simpl.
        destruct lo as [|lo]; simpl.
        -- reflexivity.
        -- destruct (lo <=? Nat.min n (run f t)); reflexivity.
      * destruct lo; reflexivity.
Qed.

Lemma match_at_run f lo sn s :
  match_at (Rep (Cls f) lo None) (mkpos sn s) =
  if lo <=? run f s then Some (run f s, []) else None.
Proof.
  unfold match_at.
  change (rep (rmatch (Cls f)) (length s) lo (mkpos sn s) []
              (fun q cs' => Some (length s - length (rest q), cs'))
          = if lo <=? run f s then Some (run f s, []) else None).
  rewrite rep_cls. cbn [rest].
  cbv zeta. rewrite (Nat.min_r _ _ (run_le f s)).
  destruct (lo <=? run f s); trivial. do 2 f_equal.
  pose proof (run_le f s). lia.
Qed.

(** Each maximal run of [f] replaced by [c0]; [inrun] says that the
    run has already been replaced. *)
Fixpoint collapse (f : N -> bool) (c0 : N) (inrun : bool) (s : pystr) : pystr :=
  match s with
  | [] => []
  | c :: t =>
      if f c then (if inrun then collapse f c0 true t
                   else c0 :: collapse f c0 true t)
      else c :: collapse f c0 false t
  end.

Lemma sub_plus_collapse f c0 : forall s sn,
  sub_go (Plus (Cls f)) (fun _ => [c0]) sn s 0 = collapse f c0 false s
  /\ sub_go (Plus (Cls f)) (fun _ => [c0]) sn s (run f s) = collapse f c0 true s.
Proof.
  unfold Plus.
  induction s as [|c t IH]; intros sn.
  - cbn [sub_go run collapse]. rewrite match_at_run. simpl. auto.
  - assert (sub_go (Rep (Cls f) 1 None) (fun _ => [c0]) sn (c :: t) 0
            = collapse f c0 false (c :: t)) as base.
    { cbn [sub_go]. rewrite match_at_run. simpl.
      destruct (f c) eqn:fc; simpl.
      - f_equal. apply IH.
      - f_equal. apply IH. }
    split; [exact base|].
    simpl run. destruct (f c) eqn:fc.
    + simpl. rewrite fc. apply IH.
    + rewrite base. simpl. rewrite fc. reflexivity.
Qed.

Lemma sub_plus f c0 s :
  sub (Plus (Cls f)) (fun _ => [c0]) s = collapse f c0 false s.
Proof. apply sub_plus_collapse. Qed.
End ScanFacts.

(** ** The normalizer *)

(** Comparisons on code points, as propositions for [lia]. *)
Ltac code_points :=
  unfold is_ascii, is_printable_ascii, is_upper, is_lower, is_ascii_digit,
    is_ascii_letter, isspace, ascii_lower, ascii_upper, in_range, SP, LF in *;
  repeat match goal with
    | h : negb _ = true |- _ => apply negb_true_iff in h
    | h : negb _ = false |- _ => apply negb_false_iff in h
    | h : _ = false |- _ => apply not_true_iff_false in h
    | |- _ = false => apply not_true_iff_false; intro
    end;
  rewrite ?orb_true_iff, ?andb_true_iff, ?N.leb_le, ?N.ltb_lt, ?N.eqb_eq in *;
  try lia.

Section Normalizer.
Context `{PyRuntime}.

Definition head_ok (s : pystr) : Prop :=
  match s with c :: _ => isspace c = false | [] => True end.

(** Every whitespace character is a space and is followed by a
    character that is not whitespace, or by nothing. *)
Fixpoint single_spaced (s : pystr) : Prop :=
  match s with
  | [] => True
  | c :: t => (isspace c = true -> c = SP /\ head_ok t) /\ single_spaced t
  end.

(** The shape of a normalized text. *)
Record normalized (s : pystr) : Prop := {
  norm_ascii : forallb is_ascii s = true;
  norm_spaced : single_spaced s;
  norm_head : head_ok s;
  norm_last : head_ok (rev s);
  norm_lower : forallb (fun c => negb (is_upper c)) s = true
}.

(** *** [strip] cuts whitespace off both ends *)

Lemma lstrip_spec s :
  exists u, s = u ++ lstrip s /\ forallb isspace u = true /\ head_ok (lstrip s).
Proof.
  induction s as [|c t (u & e & a & h)]; simpl.
  - exists []. auto.
  - destruct (isspace c) eqn:sc.
    + exists (c :: u). simpl. rewrite sc, a. rewrite <- e. auto.
    + exists []. simpl. auto.
Qed.

Lemma rstrip_spec s :
  exists v, s = rstrip s ++ v /\ forallb isspace v = true
            /\ head_ok (rev (rstrip s)).
Proof.
  unfold rstrip. destruct (lstrip_spec (rev s)) as (u & e & a & h).
  exists (rev u). repeat split.
  - rewrite <- rev_app_distr, <- e, rev_involutive. reflexivity.
  - rewrite forallb_forall in *. intros x i. apply a, in_rev, i.
  - rewrite rev_involutive. exact h.
Qed.

Lemma lstrip_id s : head_ok s -> lstrip s = s.
Proof. destruct s as [|c t]; simpl; trivial. intros ->. reflexivity. Qed.

Lemma strip_id s : head_ok s -> head_ok (rev s) -> strip s = s.
Proof.
  intros h l. unfold strip, rstrip. rewrite (lstrip_id _ h), (lstrip_id _ l).
  apply rev_involutive.
Qed.

Lemma head_ok_app_l a b : a <> [] -> head_ok (a ++ b) -> head_ok a.
Proof. destruct a; [congruence | trivial]. Qed.

Lemma head_ok_rstrip s : head_ok s -> head_ok (rstrip s).
Proof.
  intros h. destruct (rstrip_spec s) as (v & e & _ & _).
  destruct (rstrip s) as [|c t] eqn:er; simpl; trivial.
  rewrite e in h. exact h.
Qed.

Lemma strip_spec s :
  exists u v, s = u ++ strip s ++ v
              /\ head_ok (strip s) /\ head_ok (rev (strip s)).
Proof.
  destruct (lstrip_spec s) as (u & e & _ & h).
  destruct (rstrip_spec (lstrip s)) as (v & e' & _ & l).
  exists u, v. unfold strip. repeat split; trivial.
  - rewrite <- e'. exact e.
  - apply head_ok_rstrip, h.
Qed.

(** *** [single_spaced] *)

Lemma single_spaced_app_r a b : single_spaced (a ++ b) -> single_spaced b.
Proof. induction a as [|c t IH]; simpl; trivial. intros [_ s]. auto. Qed.

Lemma single_spaced_app_l a b : single_spaced (a ++ b) -> single_spaced a.
Proof.
  induction a as [|c t IH]; simpl; trivial. intros [h s]. split; auto.
  intros sc. destruct (h sc) as [-> ht]. split; trivial.
  destruct t; simpl; trivial.
Qed.

Lemma single_spaced_spaces s c :
  single_spaced s -> In c s -> isspace c = true -> c = SP.
Proof.
  induction s as [|d t IH]; simpl; [tauto|].
  intros [h st] [->|i] sc; [apply h, sc | auto].
Qed.

Lemma single_spaced_no_pair s u a b v :
  single_spaced s -> s = u ++ a :: b :: v ->
  isspace a = true -> isspace b = true -> False.
Proof.
  intros ss ->. apply single_spaced_app_r in ss. destruct ss as [h _].
  intros sa sb. destruct (h sa) as [_ hb]. simpl in hb. congruence.
Qed.

Lemma single_spaced_collapse b s : single_spaced (collapse isspace SP b s).
Proof.
  revert b. induction s as [|c t IH]; intros b; simpl; trivial.
  destruct (isspace c) eqn:sc.
  - assert (single_spaced (SP :: collapse isspace SP true t)) as ok.
    { simpl. split; [|apply IH]. intros _. split; trivial.
      clear. induction t as [|d t IHt]; simpl; trivial.
      destruct (isspace d) eqn:sd; simpl; trivial. }
    destruct b; [apply IH | exact ok].
  - simpl. split; [congruence | apply IH].
Qed.

Lemma collapse_spaced s :
  single_spaced s ->
  collapse isspace SP false s = s
  /\ (head_ok s -> collapse isspace SP true s = s).
Proof.
  induction s as [|c t IH]; simpl; [auto|]. intros [h st].
  destruct (IH st) as [e1 e2]. destruct (isspace c) eqn:sc.
  - destruct (h eq_refl) as [-> ht]. split; [|discriminate].
    rewrite (e2 ht). reflexivity.
  - rewrite e1. auto.
Qed.

(** *** What the two collapsing substitutions leave *)

Lemma collapse_forallb (g : N -> bool) f c0 b s :
  g c0 = true -> (forall c, In c s -> f c = false -> g c = true) ->
  forallb g (collapse f c0 b s) = true.
Proof.
  intros g0. revert b. induction s as [|c t IH]; intros b hs; simpl; trivial.
  assert (forallb g (collapse f c0 true t) = true) as it
      by (apply IH; intros; apply hs; simpl; auto).
  destruct (f c) eqn:fc.
  - destruct b; simpl; rewrite ?g0; exact it.
  - simpl. rewrite (hs c) by (simpl; auto). apply IH.
    intros; apply hs; simpl; auto.
Qed.

Lemma collapse_none f c0 b s :
  forallb (fun c => negb (f c)) s = true -> collapse f c0 b s = s.
Proof.
  revert b. induction s as [|c t IH]; intros b; simpl; trivial.
  intros e. apply andb_prop in e. destruct e as [fc ft].
  apply negb_true_iff in fc. rewrite fc, IH; trivial.
Qed.

Lemma forallb_app_inv (g : N -> bool) a b c :
  forallb g (a ++ b ++ c) = true -> forallb g b = true.
Proof.
  rewrite !forallb_app, !andb_true_iff. tauto.
Qed.

(** *** ASCII lower-casing keeps the shape *)

Lemma ascii_lower_space c : isspace (ascii_lower c) = isspace c.
Proof.
  unfold ascii_lower. destruct (is_upper c) eqn:u; trivial.
  assert (isspace c = false) as -> by code_points.
  code_points.
Qed.

Lemma ascii_lower_sp c : isspace c = true -> ascii_lower c = c.
Proof.
  intros sc. unfold ascii_lower. destruct (is_upper c) eqn:u; trivial.
  exfalso. code_points.
Qed.

Lemma ascii_lower_ascii c : is_ascii c = true -> is_ascii (ascii_lower c) = true.
Proof.
  intros a. unfold ascii_lower. destruct (is_upper c) eqn:u; trivial.
  code_points.
Qed.

Lemma ascii_lower_not_upper c : is_upper (ascii_lower c) = false.
Proof.
  unfold ascii_lower. destruct (is_upper c) eqn:u; trivial. code_points.
Qed.

Lemma ascii_lower_fixed c : is_upper c = false -> ascii_lower c = c.
Proof. unfold ascii_lower. intros ->. reflexivity. Qed.

Lemma head_ok_lower s : head_ok s -> head_ok (map ascii_lower s).
Proof. destruct s; simpl; trivial. rewrite ascii_lower_space. trivial. Qed.

Lemma single_spaced_lower s :
  single_spaced s -> single_spaced (map ascii_lower s).
Proof.
  induction s as [|c t IH]; simpl; trivial. intros [h st]. split; auto.
  rewrite ascii_lower_space. intros sc. destruct (h sc) as [-> ht].
  split; [reflexivity | apply head_ok_lower, ht].
Qed.

Lemma normalized_lower s :
  forallb is_ascii s = true -> single_spaced s -> head_ok s ->
  head_ok (rev s) -> normalized (map ascii_lower s).
Proof.
  intros a ss h l. split.
  - rewrite forallb_forall in *. intros x i. apply in_map_iff in i.
    destruct i as (c & <- & i). apply ascii_lower_ascii, a, i.
  - apply single_spaced_lower, ss.
  - apply head_ok_lower, h.
  - rewrite <- map_rev. apply head_ok_lower, l.
  - rewrite forallb_forall. intros x i. apply in_map_iff in i.
    destruct i as (c & <- & i). rewrite ascii_lower_not_upper. reflexivity.
Qed.

Lemma normalized_nil : normalized [].
Proof. split; simpl; trivial. Qed.

(** The last three steps of [clean_resume_text], on any text. *)
Lemma finish_normalized t :
  normalized
    (str_lower (strip (sub spaces_re (fun _ => [SP])
                           (sub nonascii_re (fun _ => [SP]) t)))).
Proof.
  unfold spaces_re, nonascii_re, ws. rewrite !sub_plus.
  set (t3 := collapse _ SP false t).
  assert (forallb is_ascii t3 = true) as a3.
  { apply collapse_forallb; [reflexivity|]. intros c _ e. code_points. }
  set (t4 := collapse isspace SP false t3).
  assert (forallb is_ascii t4 = true) as a4.
  { apply collapse_forallb; [reflexivity|]. intros c i _.
    rewrite forallb_forall in a3. apply a3, i. }
  pose proof (single_spaced_collapse false t3) as s4. fold t4 in s4.
  destruct (strip_spec t4) as (u & v & e & h & l).
  assert (forallb is_ascii (strip t4) = true) as a5
      by (rewrite e in a4; apply (forallb_app_inv _ _ _ _ a4)).
  assert (single_spaced (strip t4)) as s5.
  { rewrite e in s4. apply single_spaced_app_r in s4.
    apply single_spaced_app_l in s4. exact s4. }
  rewrite (str_lower_ascii _ a5). apply normalized_lower; trivial.
Qed.

Lemma clean_resume_text_normalized raw : normalized (clean_resume_text raw).
Proof.
  unfold clean_resume_text. destruct raw as [|c t]; [apply normalized_nil|].
  apply finish_normalized.
Qed.
End Normalizer.

Section NormalizerFixpoint.
Context `{PyRuntime}.

Lemma den_chr c p q : den (Chr c) p q -> rest p = c :: rest q.
Proof.
  simpl. intros (d & st & e). apply N.eqb_eq in e. subst d.
  apply step_advance in st. apply st.
Qed.

(** A pattern that cannot match without some character finds nothing in
    a text that lacks it. *)
Lemma matchless_without c r :
  (forall p q, den r p q -> In c (rest p)) ->
  forall sn s, ~ In c s -> matchless r sn s.
Proof.
  intros need sn s nin i li.
  destruct (match_at r (at_index sn s i)) as [[n cs]|] eqn:e; trivial.
  apply match_at_sound in e. destruct e as (q & w & d & _).
  apply need in d. simpl in d. destruct nin.
  rewrite <- (firstn_skipn i s). apply in_or_app. auto.
Qed.

Lemma den_cat r1 r2 p q :
  den (Cat r1 r2) p q -> exists m, den r1 p m /\ den r2 m q.
Proof. trivial. Qed.

Lemma hyphen_re_needs_newline p q : den hyphen_re p q -> In LF (rest p).
Proof.
  unfold hyphen_re. intros d.
  apply den_cat in d. destruct d as (m5 & d & _).
  apply den_cat in d. destruct d as (m4 & d & _).
  apply den_cat in d. destruct d as (m3 & d3 & dl).
  apply den_chr in dl.
  destruct (den_span _ _ _ d3) as (w & [e _] & _).
  rewrite e, dl. apply in_or_app. simpl. auto.
Qed.

Lemma pagenum_re_needs_newline p q : den pagenum_re p q -> In LF (rest p).
Proof.
  unfold pagenum_re. intros d.
  apply den_cat in d. destruct d as (m4 & d & _).
  apply den_cat in d. destruct d as (m3 & d & _).
  apply den_cat in d. destruct d as (m2 & d & _).
  apply den_cat in d. destruct d as (m1 & dl & _).
  apply den_chr in dl. rewrite dl. simpl. auto.
Qed.

Lemma normalized_no_newline s : normalized s -> ~ In LF s.
Proof.
  intros n i. pose proof (single_spaced_spaces _ _ (norm_spaced n) i) as e.
  discriminate e. reflexivity.
Qed.

(** A normalized text is left as it is by each step. *)
Lemma clean_resume_text_fixes s : normalized s -> clean_resume_text s = s.
Proof.
  intros n. unfold clean_resume_text. destruct s as [|c t] eqn:es; trivial.
  rewrite <- es in *. clear es c t.
  assert (matchless hyphen_re [] s) as m1.
  { eapply matchless_without; [intros p q; apply hyphen_re_needs_newline|].
    apply normalized_no_newline, n. }
  assert (matchless pagenum_re [] s) as m2.
  { eapply matchless_without; [intros p q; apply pagenum_re_needs_newline|].
    apply normalized_no_newline, n. }
  unfold sub at 4. rewrite (sub_go_matchless _ m1).
  unfold sub at 3. rewrite (sub_go_matchless _ m2).
  unfold nonascii_re, spaces_re, ws. rewrite !sub_plus.
  rewrite (collapse_none (fun c => negb (in_range 0 127 c))).
  2:{ pose proof (norm_ascii n) as a. rewrite forallb_forall in *.
      intros x i. specialize (a x i). rewrite negb_involutive. code_points. }
  destruct (collapse_spaced _ (norm_spaced n)) as [-> _].
  rewrite (strip_id _ (norm_head n) (norm_last n)).
  rewrite (str_lower_ascii _ (norm_ascii n)).
  pose proof (norm_lower n) as l. clear n m1 m2.
  induction s as [|c t IH]; simpl; trivial. simpl in l.
  apply andb_prop in l. destruct l as [lc lt].
  apply negb_true_iff in lc. rewrite (ascii_lower_fixed _ lc), IH; trivial.
Qed.
End NormalizerFixpoint.

(** ** Patterns without [\b] as languages *)

Section Languages.
Context `{PyRuntime}.

Fixpoint power (n : nat) (L : pystr -> Prop) (w : pystr) : Prop :=
  match n with
  | 0 => w = []
  | S n' => exists u v, w = u ++ v /\ L u /\ power n' L v
  end.

(** The strings that [r] matches as a whole. *)
Fixpoint lang (r : regex) (w : pystr) : Prop :=
  match r with
  | Eps => w = []
  | Cls f => exists c, w = [c] /\ f c = true
  | Cat r1 r2 => exists u v, w = u ++ v /\ lang r1 u /\ lang r2 v
  | Alt r1 r2 => lang r1 w \/ lang r2 w
  | Rep r' lo hi => exists n, lo <= n /\ within n hi /\ power n (lang r') w
  | Grp _ r' => lang r' w
  | Wb => False
  end.

Fixpoint context_free (r : regex) : bool :=
  match r with
  | Eps | Cls _ => true
  | Cat r1 r2 | Alt r1 r2 => context_free r1 && context_free r2
  | Rep r' _ _ | Grp _ r' => context_free r'
  | Wb => false
  end.

Lemma pos_eq p q : seen p = seen q -> rest p = rest q -> p = q.
Proof. destruct p, q. simpl. intros -> ->. reflexivity. Qed.

Lemma advance_nil p q : advance [] p q -> q = p.
Proof. intros [a b]. apply pos_eq; simpl in *; congruence. Qed.

Lemma advance_one c p q : advance [c] p q -> step p = Some (c, q).
Proof.
  intros [a b]. unfold step. rewrite a. simpl. do 2 f_equal.
  apply pos_eq; simpl in *; congruence.
Qed.

Lemma advance_app u v p q :
  advance (u ++ v) p q -> exists m, advance u p m /\ advance v m q.
Proof.
  intros [a b]. exists (mkpos (rev u ++ seen p) (v ++ rest q)).
  split; split; simpl; trivial.
  - rewrite a, app_assoc. reflexivity.
  - rewrite b, rev_app_distr, app_assoc. reflexivity.
Qed.

Lemma advance_unique u v p q : advance u p q -> advance v p q -> u = v.
Proof.
  intros [a _] [b _]. rewrite a in b. apply app_inv_tail in b. exact b.
Qed.

Lemma iter_power (R : pos -> pos -> Prop) (L : pystr -> Prop) :
  (forall p q, R p q <-> exists w, advance w p q /\ L w) ->
  forall n p q, iter n R p q <-> exists w, advance w p q /\ power n L w.
Proof.
  intros RL. induction n as [|n IH]; simpl; intros p q.
  - split.
    + intros ->. exists []. split; [apply advance_refl | reflexivity].
    + intros (w & a & ->). apply advance_nil, a.
  - split.
    + intros (m & pm & it). apply RL in pm. destruct pm as (u & au & lu).
      apply IH in it. destruct it as (v & av & pv).
      exists (u ++ v). split; [eapply advance_trans; eassumption|].
      exists u, v. auto.
    + intros (w & a & u & v & -> & lu & pv).
      apply advance_app in a. destruct a as (m & au & av).
      exists m. split; [apply RL | apply IH]; eauto.
Qed.

(** A pattern without [\b] matches between two positions exactly when
    the text between them is in its language. *)
Theorem den_lang r : context_free r = true ->
  forall p q, den r p q <-> exists w, advance w p q /\ lang r w.
Proof.
  induction r as [|f|r1 IH1 r2 IH2|r1 IH1 r2 IH2|r IH lo hi|i r IH|];
    simpl; intros cf p q.
  - split.
    + intros ->. exists []. split; [apply advance_refl | reflexivity].
    + intros (w & a & ->). apply advance_nil, a.
  - split.
    + intros (c & st & fc). exists [c]. split; [apply step_advance, st | eauto].
    + intros (w & a & c & -> & fc). exists c. split; [apply advance_one, a | exact fc].
  - apply andb_prop in cf. destruct cf as [cf1 cf2]. split.
    + intros (m & d1 & d2). apply (IH1 cf1) in d1. apply (IH2 cf2) in d2.
      destruct d1 as (u & au & lu). destruct d2 as (v & av & lv).
      exists (u ++ v). split; [eapply advance_trans; eassumption|].
      exists u, v. auto.
    + intros (w & a & u & v & -> & lu & lv).
      apply advance_app in a. destruct a as (m & au & av).
      exists m. split; [apply (IH1 cf1) | apply (IH2 cf2)]; eauto.
  - apply andb_prop in cf. destruct cf as [cf1 cf2]. split.
    + intros [d|d]; [apply (IH1 cf1) in d | apply (IH2 cf2) in d];
        destruct d as (w & a & l); exists w; auto.
    + intros (w & a & [l|l]); [left; apply (IH1 cf1) | right; apply (IH2 cf2)];
        eauto.
  - split.
    + intros (n & ln & nh & it).
      apply (@iter_power (den r) (lang r) (IH cf)) in it. destruct it as (w & a & pw).
      exists w. split; trivial. exists n. auto.
    + intros (w & a & n & ln & nh & pw). exists n. repeat split; trivial.
      apply (@iter_power (den r) (lang r) (IH cf)). eauto.
  - apply IH, cf.
  - discriminate.
Qed.

(** [w] occurs in [s] after [u], followed by [v]. *)
Definition occurrence (L : pystr -> Prop) (s u w v : pystr) : Prop :=
  s = u ++ w ++ v /\ L w.

(** No occurrence starts further to the left. *)
Definition leftmost (L : pystr -> Prop) (s u : pystr) : Prop :=
  forall u' w' v', occurrence L s u' w' v' -> length u <= length u'.

Lemma occurrence_matches r s u w v :
  context_free r = true -> productive r = true ->
  occurrence (lang r) s u w v ->
  match_at r (at_index [] s (length u)) <> None.
Proof.
  intros cf pr [-> l]. rewrite at_index_split.
  apply match_at_complete with (q := mkpos (rev w ++ rev u ++ []) v); trivial.
  apply (den_lang _ cf). exists w. split; trivial. split; reflexivity.
Qed.

Lemma match_occurrence r s i n cs :
  context_free r = true -> i <= length s ->
  match_at r (at_index [] s i) = Some (n, cs) ->
  exists v, occurrence (lang r) s (firstn i s) (firstn n (skipn i s)) v
            /\ length (firstn i s) = i.
Proof.
  intros cf li m. apply match_at_sound in m.
  destruct m as (q & w & d & a & lw).
  apply (den_lang _ cf) in d. destruct d as (w' & a' & l).
  rewrite <- (advance_unique a a') in l. clear w' a'.
  destruct a as [a _]. simpl in a.
  assert (firstn n (skipn i s) = w) as ->.
  { rewrite a, <- lw, firstn_app, Nat.sub_diag, firstn_all. simpl.
    apply app_nil_r. }
  exists (rest q). split; [split; trivial|].
  - rewrite <- a. symmetry. apply firstn_skipn.
  - apply firstn_length_le, li.
Qed.

(** The first item of [scan] is a leftmost occurrence of the pattern. *)
Theorem scan_first r s w cs l :
  context_free r = true -> productive r = true ->
  scan r [] s 0 = (w, cs) :: l ->
  exists i n u v, match_at r (at_index [] s i) = Some (n, cs)
    /\ w = firstn n (skipn i s)
    /\ occurrence (lang r) s u w v /\ leftmost (lang r) s u.
Proof.
  intros cf pr e. apply scan_head in e.
  destruct e as (i & n & li & m & -> & first).
  destruct (@match_occurrence r s i n cs cf li m) as (v & o & lu).
  exists i, n, (firstn i s), v. repeat split; trivial; try apply o.
  intros u' w' v' o'. rewrite lu.
  destruct (Nat.le_gt_cases i (length u')) as [|lt]; trivial.
  exfalso. eapply occurrence_matches; [exact cf | exact pr | exact o' |].
  apply first, lt.
Qed.

(** [scan] finds nothing exactly when the pattern occurs nowhere. *)
Theorem scan_none r s :
  context_free r = true -> productive r = true ->
  (scan r [] s 0 = [] <-> forall u w v, ~ occurrence (lang r) s u w v).
Proof.
  intros cf pr. rewrite scan_matchless. split.
  - intros m u w v o. eapply occurrence_matches; [exact cf | exact pr | exact o |].
    apply m. destruct o as [-> _]. rewrite length_app. lia.
  - intros no i li. destruct (match_at r (at_index [] s i)) as [[n cs]|] eqn:e;
      trivial.
    destruct (@match_occurrence r s i n cs cf li e) as (v & o & _).
    destruct (no _ _ _ o).
Qed.

(** A group around the whole pattern captures the whole match. *)
Lemma match_at_group i r p n cs :
  match_at (Grp i r) p = Some (n, cs) -> group i cs = firstn n (rest p).
Proof.
  unfold match_at. simpl. intros e. apply rmatch_sound in e.
  destruct e as (q & cs' & _ & e). injection e as <- <-.
  simpl. rewrite Nat.eqb_refl. reflexivity.
Qed.

(** *** Runs of one class as languages *)

Lemma power_cls f n w :
  power n (lang (Cls f)) w <-> length w = n /\ forallb f w = true.
Proof.
  revert w. induction n as [|n IH]; simpl; intros w.
  - split.
    + intros ->. auto.
    + intros [e _]. destruct w; [reflexivity | discriminate].
  - split.
    + intros (u & v & -> & (c & -> & fc) & pv). apply IH in pv.
      destruct pv as [<- fv]. simpl. rewrite fc, fv. auto.
    + destruct w as [|c t]; simpl; [intros [e _]; discriminate|].
      intros [e a]. apply andb_prop in a. destruct a as [fc ft].
      exists [c], t. repeat split; eauto. apply IH. split; [lia | exact ft].
Qed.

Lemma lang_rep_cls f lo hi w :
  lang (Rep (Cls f) lo hi) w <->
  lo <= length w /\ within (length w) hi /\ forallb f w = true.
Proof.
  cbn [lang]. split.
  - intros (n & ln & nh & pw). apply power_cls in pw. destruct pw as [<- fw].
    auto.
  - intros (ln & nh & fw). exists (length w). repeat split; trivial.
    apply power_cls. auto.
Qed.

Lemma lang_chr c w : lang (Chr c) w <-> w = [c].
Proof.
  simpl. split.
  - intros (d & -> & e). apply N.eqb_eq in e. subst. reflexivity.
  - intros ->. exists c. split; trivial. apply N.eqb_refl.
Qed.
End Languages.

(** ** Phone numbers *)

Section Phone.
Context `{PyRuntime}.

(** The candidate with everything but its digits removed. *)
Definition digits_of (w : pystr) : pystr := filter is_digit w.

Definition all_digits (n : nat) (w : pystr) : Prop :=
  length w = n /\ forallb is_digit w = true.

(** An optional separator: nothing, a hyphen or one whitespace character. *)
Definition opt_sep (w : pystr) : Prop :=
  w = [] \/ exists c, w = [c] /\ phone_sep c = true.

(** The three shapes of a phone candidate, as the specification words
    them: NNN-NNN-NNNN with optional separators, a parenthesized area
    code, a bare run of 10 to 15 digits. *)
Inductive phone_shape : pystr -> Prop :=
| shape_grouped a s1 b s2 c :
    all_digits 3 a -> opt_sep s1 -> all_digits 3 b -> opt_sep s2 ->
    all_digits 4 c -> phone_shape (a ++ s1 ++ b ++ s2 ++ c)
| shape_area a sp b s c :
    all_digits 3 a -> forallb isspace sp = true -> all_digits 3 b ->
    opt_sep s -> all_digits 4 c ->
    phone_shape ([ch "("] ++ a ++ [ch ")"] ++ sp ++ b ++ s ++ c)
| shape_bare w :
    10 <= length w <= 15 -> forallb is_digit w = true -> phone_shape w.

Lemma lang_times_digit n w : lang (Times n digit) w <-> all_digits n w.
Proof.
  unfold Times, digit, all_digits. rewrite lang_rep_cls. simpl. intuition lia.
Qed.

Lemma lang_opt_sep w : lang (Opt (Cls phone_sep)) w <-> opt_sep w.
Proof.
  unfold Opt, opt_sep. rewrite lang_rep_cls. simpl. split.
  - intros (_ & l & a). destruct w as [|c [|d t]]; simpl in *; try lia; auto.
    right. exists c. rewrite andb_true_r in a. auto.
  - intros [->|(c & -> & e)]; simpl; rewrite ?e; repeat split; lia.
Qed.

Lemma lang_star_ws w : lang (Star ws) w <-> forallb isspace w = true.
Proof.
  unfold Star, ws. rewrite lang_rep_cls. simpl. intuition lia.
Qed.

Lemma lang_digit_run w :
  lang (Rep digit 10 (Some 15)) w <->
  10 <= length w <= 15 /\ forallb is_digit w = true.
Proof. unfold digit. rewrite lang_rep_cls. simpl. tauto. Qed.

(** The pattern of the source matches exactly the three shapes. *)
Theorem phone_re_shape w : lang phone_re w <-> phone_shape w.
Proof.
  unfold phone_re. cbn [lang]. split.
  - intros [[l|l]|l].
    + destruct l as (? & c & -> & (? & s2 & -> & (? & b & ->
                       & (a & s1 & -> & la & ls1) & lb) & ls2) & lc).
      apply lang_times_digit in la, lb, lc. apply lang_opt_sep in ls1, ls2.
      rewrite <- !app_assoc. apply shape_grouped; trivial.
    + destruct l as (? & c & -> & (? & s & -> & (? & b & -> & (? & sp & ->
                       & (? & cl & -> & (op & a & -> & lo & la) & lcl) & lsp)
                       & lb) & ls) & lc).
      apply lang_times_digit in la, lb, lc. apply lang_opt_sep in ls.
      apply lang_star_ws in lsp. apply lang_chr in lo, lcl. subst op cl.
      rewrite <- !app_assoc. apply shape_area; trivial.
    + apply lang_digit_run in l. apply shape_bare; tauto.
  - intros [a s1 b s2 c ha hs1 hb hs2 hc | a sp b s c ha hsp hb hs hc | w' l d].
    + left; left. exists (((a ++ s1) ++ b) ++ s2), c.
      split; [rewrite <- !app_assoc; reflexivity|].
      split; [|apply lang_times_digit, hc].
      exists ((a ++ s1) ++ b), s2. split; [reflexivity|].
      split; [|apply lang_opt_sep, hs2].
      exists (a ++ s1), b. split; [reflexivity|].
      split; [|apply lang_times_digit, hb].
      exists a, s1. split; [reflexivity|].
      split; [apply lang_times_digit, ha | apply lang_opt_sep, hs1].
    + left; right. exists ((((([ch "("] ++ a) ++ [ch ")"]) ++ sp) ++ b) ++ s), c.
      split; [rewrite <- !app_assoc; reflexivity|].
      split; [|apply lang_times_digit, hc].
      exists (((([ch "("] ++ a) ++ [ch ")"]) ++ sp) ++ b), s. split; [reflexivity|].
      split; [|apply lang_opt_sep, hs].
      exists ((([ch "("] ++ a) ++ [ch ")"]) ++ sp), b. split; [reflexivity|].
      split; [|apply lang_times_digit, hb].
      exists (([ch "("] ++ a) ++ [ch ")"]), sp. split; [reflexivity|].
      split; [|apply lang_star_ws, hsp].
      exists ([ch "("] ++ a), [ch ")"]. split; [reflexivity|].
      split; [|apply lang_chr; reflexivity].
      exists [ch "("], a. split; [reflexivity|].
      split; [apply lang_chr; reflexivity | apply lang_times_digit, ha].
    + right. apply lang_digit_run. auto.
Qed.

(** *** Counting the digits of a candidate *)

Lemma space_not_digit c : isspace c = true -> is_digit c = false.
Proof.
  intros sc. unfold is_digit. destruct (is_ascii c) eqn:a.
  - code_points.
  - destruct (uni_digit c) eqn:u; trivial.
    apply uni_digit_not_space in u. congruence.
Qed.

Lemma sep_not_digit c : phone_sep c = true -> is_digit c = false.
Proof.
  unfold phone_sep. intros e. apply orb_prop in e. destruct e as [e|e].
  - apply N.eqb_eq in e. subst c. reflexivity.
  - apply space_not_digit, e.
Qed.

Lemma digits_of_app a b : digits_of (a ++ b) = digits_of a ++ digits_of b.
Proof. apply filter_app. Qed.

Lemma digits_of_digits w : forallb is_digit w = true -> digits_of w = w.
Proof.
  induction w as [|c t IH]; simpl; trivial. intros e.
  apply andb_prop in e. destruct e as [-> et]. rewrite IH; trivial.
Qed.

Lemma digits_of_spaces w : forallb isspace w = true -> digits_of w = [].
Proof.
  induction w as [|c t IH]; simpl; trivial. intros e.
  apply andb_prop in e. destruct e as [ec et].
  rewrite (space_not_digit _ ec). auto.
Qed.

Lemma digits_of_sep w : opt_sep w -> digits_of w = [].
Proof.
  intros [->|(c & -> & e)]; simpl; trivial. rewrite (sep_not_digit _ e).
  reflexivity.
Qed.

Lemma digits_of_all n w : all_digits n w -> digits_of w = w /\ length w = n.
Proof. intros [l d]. split; [apply digits_of_digits, d | exact l]. Qed.

(** Every candidate holds between 10 and 15 digits. *)
Lemma phone_shape_digits w :
  phone_shape w -> 10 <= length (digits_of w) <= 15.
Proof.
  intros [a s1 b s2 c ha hs1 hb hs2 hc | a sp b s c ha hsp hb hs hc | w' l d].
  - rewrite !digits_of_app, (digits_of_sep hs1), (digits_of_sep hs2).
    destruct (digits_of_all ha) as [-> la], (digits_of_all hb) as [-> lb],
      (digits_of_all hc) as [-> lc].
    rewrite !length_app. simpl. lia.
  - rewrite !digits_of_app, (digits_of_sep hs), (digits_of_spaces _ hsp).
    destruct (digits_of_all ha) as [-> la], (digits_of_all hb) as [-> lb],
      (digits_of_all hc) as [-> lc].
    change (digits_of [ch "("]) with (@nil N).
    change (digits_of [ch ")"]) with (@nil N).
    rewrite !length_app. simpl. lia.
  - rewrite (digits_of_digits _ d). exact l.
Qed.

Lemma sub_nondigit w : sub nondigit_re (fun _ => []) w = digits_of w.
Proof.
  unfold sub, nondigit_re, digits_of. rewrite sub_cls_delete.
  apply filter_ext. intros c. apply negb_involutive.
Qed.

(** What [re.findall] hands to [extract_phone_number]: nothing when no
    candidate occurs, else first the leftmost candidate. *)
Lemma findall_phone text :
  match findall phone_re text with
  | [] => forall u c v, ~ occurrence phone_shape text u c v
  | c :: _ => exists u v, occurrence phone_shape text u c v
                          /\ leftmost phone_shape text u
  end.
Proof.
  unfold findall. change (ngroups phone_re) with 1.
  destruct (scan phone_re [] text 0) as [|[w cs] l] eqn:e; simpl.
  - intros u c v [eq sh]. apply phone_re_shape in sh.
    apply (proj1 (@scan_none _ phone_re text eq_refl eq_refl)) with (u := u)
      (w := c) (v := v) in e. apply e. split; trivial.
  - apply (@scan_first _ phone_re text w cs l eq_refl eq_refl) in e.
    destruct e as (i & n & u & v & m & ew & [eq l'] & lm).
    apply match_at_group in m. simpl in m. rewrite <- ew in m. rewrite m.
    exists u, v. split; [split; trivial; apply phone_re_shape, l'|].
    intros u' w' v' [eq' sh]. apply (lm u' w' v'). split; trivial.
    apply phone_re_shape, sh.
Qed.
End Phone.

(** ** Names *)

Section Name.
Context `{PyRuntime}.

(** A line with nothing but whitespace on it. *)
Definition blank (l : pystr) : bool := forallb isspace l.

(** The first line of the text that is not empty, as the specification
    words it; a line of whitespace only counts as empty, and a text
    without such a line gives the empty string. *)
Definition first_nonempty_line (raw : pystr) : pystr :=
  hd [] (filter (fun l => negb (blank l)) (split_on LF raw)).

(** The separator punctuation removed. *)
Definition remove_seps (l : pystr) : pystr :=
  filter (fun c => negb (name_sep c)) l.

(** The name candidate of the specification. *)
Definition name_candidate (raw : pystr) : pystr :=
  strip (remove_seps (first_nonempty_line raw)).

(** A Title-Case word, and a sequence of two or three of them. *)
Definition title_word (w : pystr) : Prop :=
  exists c t, w = c :: t /\ is_upper c = true /\ t <> []
              /\ forallb is_lower t = true.

Definition title_sequence (w : pystr) : Prop :=
  exists a b, title_word a /\ title_word b
    /\ (w = a ++ [SP] ++ b
        \/ exists c, title_word c /\ w = a ++ [SP] ++ b ++ [SP] ++ c).

(** *** Stripping padded text *)

Lemma lstrip_spaces u s : forallb isspace u = true -> lstrip (u ++ s) = lstrip s.
Proof.
  induction u as [|c t IH]; simpl; trivial. intros e.
  apply andb_prop in e. destruct e as [-> et]. auto.
Qed.

Lemma lstrip_blank u : forallb isspace u = true -> lstrip u = [].
Proof.
  intros e. rewrite <- (app_nil_r u), lstrip_spaces by exact e. reflexivity.
Qed.

Lemma forallb_rev (f : N -> bool) l : forallb f (rev l) = forallb f l.
Proof.
  induction l as [|c t IH]; simpl; trivial.
  rewrite forallb_app, IH. simpl. rewrite andb_true_r. apply andb_comm.
Qed.

Lemma rstrip_spaces s v : forallb isspace v = true -> rstrip (s ++ v) = rstrip s.
Proof.
  intros e. unfold rstrip. rewrite rev_app_distr, lstrip_spaces; trivial.
  rewrite forallb_rev. exact e.
Qed.

Lemma strip_trailing s v : forallb isspace v = true -> strip (s ++ v) = strip s.
Proof.
  intros e. unfold strip. induction s as [|c t IH]; simpl.
  - rewrite lstrip_blank by exact e. reflexivity.
  - destruct (isspace c); trivial.
    change (c :: t ++ v) with ((c :: t) ++ v). apply rstrip_spaces, e.
Qed.

Lemma strip_padded u s v :
  forallb isspace u = true -> forallb isspace v = true ->
  strip (u ++ s ++ v) = strip s.
Proof.
  intros eu ev. rewrite app_assoc, strip_trailing by exact ev.
  unfold strip. rewrite lstrip_spaces by exact eu. reflexivity.
Qed.

Lemma strip_strip s : strip (strip s) = strip s.
Proof.
  destruct (strip_spec s) as (u & v & _ & h & l). apply strip_id; trivial.
Qed.

Lemma strip_pads s :
  exists u v, s = u ++ strip s ++ v
              /\ forallb isspace u = true /\ forallb isspace v = true.
Proof.
  destruct (lstrip_spec s) as (u & e & a & _).
  destruct (rstrip_spec (lstrip s)) as (v & e' & a' & _).
  exists u, v. unfold strip. rewrite <- e'. auto.
Qed.

Lemma sep_not_space c : isspace c = true -> name_sep c = false.
Proof.
  intros sc. unfold name_sep, ch. simpl N_of_ascii.
  code_points.
Qed.

Lemma remove_seps_spaces u : forallb isspace u = true -> remove_seps u = u.
Proof.
  induction u as [|c t IH]; simpl; trivial. intros e.
  apply andb_prop in e. destruct e as [ec et].
  rewrite sep_not_space by exact ec. simpl. rewrite IH; trivial.
Qed.

(** Trimming before the separators are removed changes nothing. *)
Lemma strip_remove_seps s : strip (remove_seps (strip s)) = strip (remove_seps s).
Proof.
  destruct (strip_pads s) as (u & v & e & au & av).
  rewrite e at 2. unfold remove_seps at 2. rewrite !filter_app.
  fold (remove_seps u) (remove_seps v) (remove_seps (strip s)).
  rewrite (remove_seps_spaces u), (remove_seps_spaces v) by assumption.
  symmetry. apply strip_padded; trivial.
Qed.

(** *** The first line of the trimmed text *)

Definition first_line (s : pystr) : pystr := nth 0 (split_on LF s) [].

Lemma split_on_cons sep s : exists l ls, split_on sep s = l :: ls.
Proof.
  induction s as [|c t (l & ls & e)]; simpl; eauto.
  destruct (c =? sep)%N; rewrite ?e; eauto.
Qed.

Lemma first_line_cons c t :
  first_line (c :: t) = if (c =? LF)%N then [] else c :: first_line t.
Proof.
  unfold first_line. simpl. destruct (c =? LF)%N; trivial.
  destruct (split_on_cons LF t) as (l & ls & ->). reflexivity.
Qed.

Lemma first_line_spaces v : forallb isspace v = true ->
  forallb isspace (first_line v) = true.
Proof.
  induction v as [|c t IH]; [reflexivity|]. simpl. intros e.
  apply andb_prop in e. destruct e as [ec et]. rewrite first_line_cons.
  destruct (c =? LF)%N; simpl; trivial. rewrite ec. auto.
Qed.

Lemma first_line_trailing s v : forallb isspace v = true ->
  exists w, first_line (s ++ v) = first_line s ++ w
            /\ forallb isspace w = true.
Proof.
  intros e. induction s as [|c t (w & ew & aw)].
  - exists (first_line v). split; [reflexivity | apply first_line_spaces, e].
  - simpl. rewrite !first_line_cons. destruct (c =? LF)%N.
    + exists []. auto.
    + exists w. rewrite ew. auto.
Qed.

Lemma first_nonempty_line_cons c t :
  isspace c = true ->
  strip (first_nonempty_line (c :: t)) = strip (first_nonempty_line t).
Proof.
  intros sc. unfold first_nonempty_line. simpl.
  destruct (c =? LF)%N eqn:e; [reflexivity|].
  destruct (split_on_cons LF t) as (l & ls & ->). simpl. rewrite sc. simpl.
  destruct (blank l); simpl; trivial.
  unfold strip. simpl. rewrite sc. reflexivity.
Qed.

Lemma first_nonempty_line_lstrip s :
  strip (first_nonempty_line s) = strip (first_nonempty_line (lstrip s)).
Proof.
  induction s as [|c t IH]; simpl; trivial.
  destruct (isspace c) eqn:sc; trivial.
  rewrite first_nonempty_line_cons by exact sc. exact IH.
Qed.

Lemma first_nonempty_line_head s :
  head_ok s -> first_nonempty_line s = first_line s.
Proof.
  unfold first_nonempty_line, first_line. destruct s as [|c t]; simpl; trivial.
  intros nc. assert ((c =? LF)%N = false) as ->.
  { apply N.eqb_neq. intros ->. discriminate nc. }
  destruct (split_on_cons LF t) as (l & ls & ->). simpl. rewrite nc. reflexivity.
Qed.

(** The line that the code takes is the first non-empty line. *)
Lemma first_line_of_stripped raw :
  strip (first_line (strip raw)) = strip (first_nonempty_line raw).
Proof.
  rewrite first_nonempty_line_lstrip.
  destruct (lstrip_spec raw) as (_ & _ & _ & h).
  rewrite first_nonempty_line_head by exact h.
  destruct (rstrip_spec (lstrip raw)) as (v & e & a & _).
  replace (lstrip raw) with (strip raw ++ v) by (symmetry; exact e).
  destruct (@first_line_trailing (strip raw) v a) as (w & -> & aw).
  symmetry. apply strip_trailing, aw.
Qed.

(** The candidate of the code is the candidate of the specification. *)
Lemma candidate_of_code raw :
  strip (sub name_sep_re (fun _ => [])
             (strip (nth 0 (split_on LF (strip raw)) [])))
  = name_candidate raw.
Proof.
  unfold sub, name_sep_re. rewrite sub_cls_delete.
  fold (first_line (strip raw)) (remove_seps (strip (first_line (strip raw)))).
  rewrite first_line_of_stripped, strip_remove_seps. reflexivity.
Qed.

(** *** The fallback pattern *)

Lemma lang_opt r w : lang (Opt r) w <-> w = [] \/ lang r w.
Proof.
  unfold Opt. cbn [lang within]. split.
  - intros (n & _ & l & pw). destruct n as [|[|n]]; simpl in pw; [auto| |lia].
    destruct pw as (u & v & -> & lu & ->). rewrite app_nil_r. auto.
  - intros [->|l].
    + exists 0. simpl. repeat split; lia.
    + exists 1. simpl. repeat split; try lia.
      exists w, []. rewrite app_nil_r. auto.
Qed.

Lemma lang_plus_lower t :
  lang (Plus lower) t <-> t <> [] /\ forallb is_lower t = true.
Proof.
  unfold Plus, lower. rewrite lang_rep_cls. unfold within.
  destruct t as [|c t]; simpl.
  - split; [intros (l & _); lia | intros (n & _); congruence].
  - split.
    + intros (_ & _ & a). split; [discriminate | exact a].
    + intros (_ & a). repeat split; trivial. lia.
Qed.

Lemma lang_title_word w : lang (upper >> Plus lower) w <-> title_word w.
Proof.
  cbn [lang]. unfold title_word. split.
  - intros (u & t & -> & l & lt). unfold upper in l. simpl in l.
    destruct l as (c & -> & uc).
    apply lang_plus_lower in lt. exists c, t. tauto.
  - intros (c & t & -> & uc & nt & lt). exists [c], t. split; [reflexivity|].
    split; [exists c; auto | apply lang_plus_lower; auto].
Qed.

Lemma lang_cat r1 r2 w :
  lang (r1 >> r2) w <-> exists u v, w = u ++ v /\ lang r1 u /\ lang r2 v.
Proof. reflexivity. Qed.

Lemma lang_cat_assoc r1 r2 r3 w :
  lang (r1 >> r2 >> r3) w <-> lang (r1 >> (r2 >> r3)) w.
Proof.
  cbn [lang]. split.
  - intros (? & c & -> & (a & b & -> & la & lb) & lc).
    exists a, (b ++ c). rewrite app_assoc. eauto 8.
  - intros (a & ? & -> & la & b & c & -> & lb & lc).
    exists (a ++ b), c. rewrite app_assoc. eauto 8.
Qed.

Lemma lang_cat_ext r1 r2 (L1 L2 : pystr -> Prop) w :
  (forall u, lang r1 u <-> L1 u) -> (forall v, lang r2 v <-> L2 v) ->
  (lang (r1 >> r2) w <-> exists u v, w = u ++ v /\ L1 u /\ L2 v).
Proof.
  intros e1 e2. cbn [lang]. split; intros (u & v & -> & a & b);
    exists u, v; (split; [reflexivity|]); split; try apply e1; try apply e2;
    trivial.
Qed.

(** A space and a Title-Case word. *)
Lemma lang_next_word w :
  lang (Chr SP >> upper >> Plus lower) w <->
  exists b, w = [SP] ++ b /\ title_word b.
Proof.
  rewrite lang_cat_assoc.
  rewrite (lang_cat_ext _ _ _ _ _ (lang_chr SP) lang_title_word).
  split.
  - intros (u & v & -> & -> & t). eauto.
  - intros (b & -> & t). exists [SP], b. auto.
Qed.

(** The fallback pattern matches exactly the Title-Case sequences of two
    or three words. *)
Theorem name_re_title w : lang name_re w <-> title_sequence w.
Proof.
  unfold name_re, title_sequence. split.
  - intros l. apply lang_cat in l. destruct l as (x & o & -> & lx & lo).
    apply lang_opt in lo.
    apply lang_cat_assoc in lx. apply lang_cat in lx.
    destruct lx as (y & b & -> & ly & lb). apply lang_title_word in lb.
    apply lang_cat in ly. destruct ly as (a & sp & -> & la & lsp).
    apply lang_title_word in la. apply lang_chr in lsp. subst sp.
    exists a, b. repeat split; trivial.
    destruct lo as [->|lo].
    + left. rewrite app_nil_r, <- app_assoc. reflexivity.
    + right. apply lang_next_word in lo. destruct lo as (c & -> & tc).
      exists c. split; trivial. rewrite <- !app_assoc. reflexivity.
  - intros (a & b & ta & tb & e).
    assert (lang (upper >> Plus lower >> Chr SP >> upper >> Plus lower)
                 (a ++ [SP] ++ b)) as two.
    { apply lang_cat_assoc, lang_cat. exists (a ++ [SP]), b.
      split; [rewrite <- app_assoc; reflexivity|].
      split; [|apply lang_title_word, tb].
      apply lang_cat. exists a, [SP]. split; [reflexivity|].
      split; [apply lang_title_word, ta | apply lang_chr; reflexivity]. }
    apply lang_cat. destruct e as [->|(c & tc & ->)].
    + exists (a ++ [SP] ++ b), []. rewrite app_nil_r.
      repeat split; trivial. apply lang_opt. auto.
    + exists (a ++ [SP] ++ b), ([SP] ++ c).
      split; [rewrite <- !app_assoc; reflexivity|]. split; trivial.
      apply lang_opt. right. apply lang_next_word. eauto.
Qed.

Lemma title_sequence_upper w :
  title_sequence w -> exists c t, w = c :: t /\ is_upper c = true.
Proof.
  intros (a & b & (c & t & -> & uc & _) & _ & [->|(d & _ & ->)]);
    exists c; simpl; eauto.
Qed.

(** What [re.findall] hands to the fallback of [extract_name]: nothing
    when no Title-Case sequence occurs, else first the leftmost one. *)
Lemma findall_name raw :
  match findall name_re raw with
  | [] => forall u m v, ~ occurrence title_sequence raw u m v
  | m :: _ => exists u v, occurrence title_sequence raw u m v
                          /\ leftmost title_sequence raw u
  end.
Proof.
  unfold findall. change (ngroups name_re) with 0.
  destruct (scan name_re [] raw 0) as [|[w cs] l] eqn:e; simpl.
  - intros u m v [eq sh]. apply name_re_title in sh.
    apply (proj1 (@scan_none _ name_re raw eq_refl eq_refl)) with (u := u)
      (w := m) (v := v) in e. apply e. split; trivial.
  - apply (@scan_first _ name_re raw w cs l eq_refl eq_refl) in e.
    destruct e as (i & n & u & v & m & ew & [eq l'] & lm).
    exists u, v. split; [split; trivial; apply name_re_title, l'|].
    intros u' w' v' [eq' sh]. apply (lm u' w' v'). split; trivial.
    apply name_re_title, sh.
Qed.

(** The test that sends [extract_name] to its fallback. *)
Definition not_a_name (candidate : pystr) : bool :=
  (5 <? length (split_ws candidate)) || (length candidate <? 4).

Lemma extract_name_unfold raw :
  extract_name raw =
  if not_a_name (name_candidate raw) then
    match findall name_re raw with
    | n :: _ => str_title n
    | [] => name_sentinel
    end
  else str_title (name_candidate raw).
Proof.
  unfold extract_name, not_a_name. cbv zeta.
  rewrite candidate_of_code. reflexivity.
Qed.

Lemma name_candidate_blank raw :
  forallb isspace raw = true -> name_candidate raw = [].
Proof.
  intros e. rewrite <- candidate_of_code. unfold strip at 3.
  rewrite lstrip_blank by exact e. reflexivity.
Qed.
End Name.

(** ** Skills *)

Section Skills.
Context `{PyRuntime}.

Definition last_is_word (s : pystr) : bool :=
  match rev s with c :: _ => is_word c | [] => false end.
Definition first_is_word (s : pystr) : bool :=
  match s with c :: _ => is_word c | [] => false end.

(** A word boundary lies between [before] and [after]: a word character
    on one side only. *)
Definition word_boundary (before after : pystr) : Prop :=
  xorb (last_is_word before) (first_is_word after) = true.

(** [skill] occurs in [text] as a whole word: verbatim, with a word
    boundary at each end. *)
Definition whole_word (skill text : pystr) : Prop :=
  exists u v, text = u ++ skill ++ v
              /\ word_boundary u (skill ++ v) /\ word_boundary (u ++ skill) v.

Lemma den_lit s : forall p q, den (Lit s) p q <-> advance s p q.
Proof.
  induction s as [|c t IH]; intros p q.
  - simpl. split; [intros ->; apply advance_refl | apply advance_nil].
  - change (Lit (c :: t)) with (Chr c >> Lit t)%re. split.
    + intros d. apply den_cat in d. destruct d as (m & dc & dt).
      apply IH in dt. simpl in dc. destruct dc as (d & st & e).
      apply N.eqb_eq in e. subst d. apply step_advance in st.
      apply (advance_trans st dt).
    + intros a. change (c :: t) with ([c] ++ t) in a.
      apply advance_app in a. destruct a as (m & ac & at').
      exists m. split; [|apply IH, at'].
      exists c. split; [apply advance_one, ac | apply N.eqb_refl].
Qed.

Lemma den_skill_re skill p q :
  den (skill_re skill) p q <->
  boundary p = true /\ advance skill p q /\ boundary q = true.
Proof.
  unfold skill_re. split.
  - intros d. apply den_cat in d. destruct d as (m2 & d & [b2 ->]).
    apply den_cat in d. destruct d as (m1 & [b1 ->] & dl).
    apply den_lit in dl. auto.
  - intros (b1 & a & b2). exists q. split; [|split; trivial].
    exists p. split; [split; trivial | apply den_lit, a].
Qed.

Lemma productive_lit s : productive (Lit s) = true.
Proof. induction s as [|c t IH]; simpl; trivial. Qed.

Lemma boundary_split u w :
  boundary (mkpos (rev u ++ []) w) = xorb (last_is_word u) (first_is_word w).
Proof. unfold boundary, word_before, word_after. simpl. rewrite app_nil_r. reflexivity. Qed.

(** [re.search] with the pattern of a skill succeeds exactly when the
    skill occurs as a whole word. *)
Theorem search_skill skill text :
  search (skill_re skill) text = true <-> whole_word skill text.
Proof.
  unfold search. rewrite search_go_true. split.
  - intros (i & n & cs & li & m). apply match_at_sound in m.
    destruct m as (q & w & d & _). apply den_skill_re in d.
    destruct d as (b1 & [a1 a2] & b2). simpl in a1, a2.
    exists (firstn i text), (rest q). repeat split.
    + rewrite <- a1. symmetry. apply firstn_skipn.
    + unfold word_boundary. rewrite <- a1, <- boundary_split. exact b1.
    + unfold word_boundary. rewrite <- boundary_split.
      rewrite rev_app_distr, <- app_assoc, <- a2.
      destruct q; exact b2.
  - intros (u & v & -> & b1 & b2).
    assert (den (skill_re skill) (mkpos (rev u ++ []) (skill ++ v))
                (mkpos (rev (u ++ skill) ++ []) v)) as d.
    { apply den_skill_re. rewrite !boundary_split. repeat split; trivial.
      simpl. rewrite rev_app_distr, <- app_assoc. reflexivity. }
    apply match_at_complete in d.
    2:{ unfold skill_re. simpl. rewrite productive_lit. reflexivity. }
    exists (length u). rewrite at_index_split.
    destruct (match_at _ _) as [[n cs]|]; [|congruence].
    exists n, cs. split; trivial. rewrite length_app. lia.
Qed.
End Skills.

(** ** The patterns fit the matcher *)

(** Every unbounded repetition in a pattern of the source is of a
    sub-pattern that consumes, as [rmatch] supposes. *)
Lemma patterns_productive `{PyRuntime} (skill : pystr) :
  forallb productive
    [hyphen_re; pagenum_re; nonascii_re; spaces_re; email_re; phone_re;
     nondigit_re; url_re; name_sep_re; name_re; skill_re skill] = true.
Proof.
  cbn [forallb]. unfold skill_re. cbn [productive].
  rewrite productive_lit. reflexivity.
Qed.

(** No pattern handed to [re.sub] or [re.findall] matches the empty
    string, so [scan] and [sub_go] never meet an empty match. *)
Lemma patterns_consume `{PyRuntime} :
  forallb (fun r => 0 <? min_len r)
    [hyphen_re; pagenum_re; nonascii_re; spaces_re; email_re; phone_re;
     nondigit_re; url_re; name_sep_re; name_re] = true.
Proof. reflexivity. Qed.

(** ** Entities *)

Section Entities.
Context `{PyRuntime}.

Lemma firstn_nodup (l : list pystr) n : NoDup l -> NoDup (firstn n l).
Proof.
  intros nd. rewrite <- (firstn_skipn n l) in nd.
  apply NoDup_app_remove_r in nd. exact nd.
Qed.

Lemma firstn_in (l : list pystr) n x : In x (firstn n l) -> In x l.
Proof.
  intros i. rewrite <- (firstn_skipn n l). apply in_or_app. auto.
Qed.

End Entities.

(** ** Documents to compute with *)

(** A world in which every PDF has the given pages, no DOCX exists, the
    catalog holds two skills and the model finds no entity. *)
Definition pdf_world (pages : list (option pystr)) : world := {|
  pdf_pages := fun _ => Opened pages;
  docx_paragraphs := fun _ => FileNotFound;
  skills_txt := Some [py "Python" ++ [LF]; py "sql" ++ [LF]];
  nlp := Some (fun _ => [])
|}.

(** A resume whose second line holds the word "Error". *)
Definition resume_with_error_word : pystr :=
  py "John Doe" ++ [LF] ++ py "Error handling and logging in Python".


(** The keys of a full record. *)
Definition parsed_keys : list pystr :=
  [py "name"; py "email"; py "phone"; py "urls"; py "skills";
   py "nlp_entities"; py "raw_text_length"].

(** ** Theorems about the normalizer *)

(** C4, as the code has it: for every input string, the output of
    [clean_resume_text] contains no character outside the ASCII range
    (code points 0 to 127) and no two consecutive whitespace characters. *)
Theorem clean_resume_text_ascii_single_spaced `{PyRuntime} (raw : pystr) :
  (forall c, In c (clean_resume_text raw) -> is_ascii c = true)
  /\ (forall u a b v, clean_resume_text raw = u ++ a :: b :: v ->
        ~ (isspace a = true /\ isspace b = true)).
Proof.
  pose proof (clean_resume_text_normalized raw) as n. split.
  - apply forallb_forall, (norm_ascii n).
  - intros u a b v e [sa sb].
    exact (single_spaced_no_pair _ _ _ _ (norm_spaced n) e sa sb).
Qed.

(** C4 as stated fails: a control character of the input, here U+0001
    between two letters, is ASCII and not whitespace, so it survives every
    step, and it is not printable. *)
Lemma clean_resume_text_keeps_control_character :
  ~ (forall c, In c (clean_resume_text [74; 1; 68]%N) ->
               is_printable_ascii c = true).
Proof.
  intros h. specialize (h 1%N). vm_compute in h.
  assert (false = true) as e by (apply h; auto). discriminate e.
Qed.

(** C5: [clean_resume_text] is idempotent. *)
Theorem clean_resume_text_idempotent `{PyRuntime} (t : pystr) :
  clean_resume_text (clean_resume_text t) = clean_resume_text t.
Proof.
  apply clean_resume_text_fixes, clean_resume_text_normalized.
Qed.

(** ** Theorems about the field extractors *)

(** C7: [extract_phone_number] returns the digits of the first candidate
    that [re.findall] reports; that candidate is the leftmost piece of the
    text with one of the three shapes, and its digit count is between 10
    and 15, so the length test passes on it; the result is null exactly
    when no piece of the text has one of the shapes. On the example of the
    specification the result is "5551234567". *)
Theorem extract_phone_number_first_candidate `{PyRuntime} (text : pystr) :
  extract_phone_number text
  = find phone_len_ok (map digits_of (findall phone_re text))
  /\ match extract_phone_number text with
     | Some p =>
         exists u c v, occurrence phone_shape text u c v
           /\ leftmost phone_shape text u
           /\ p = digits_of c /\ 10 <= length p <= 15
     | None => forall u c v, ~ occurrence phone_shape text u c v
     end
  /\ extract_phone_number (py "call me at 555-123-4567 thanks")
     = Some (py "5551234567").
Proof.
  split; [|split].
  - unfold extract_phone_number. f_equal. apply map_ext, sub_nondigit.
  - pose proof (findall_phone text) as f. unfold extract_phone_number.
    destruct (findall phone_re text) as [|c l]; simpl; trivial.
    destruct f as (u & v & o & lm). rewrite sub_nondigit.
    pose proof (phone_shape_digits (proj2 o)) as d.
    unfold phone_len_ok.
    destruct d as [d1 d2]. apply Nat.leb_le in d1, d2. rewrite d1, d2. simpl.
    apply Nat.leb_le in d1, d2. exists u, c, v. auto.
  - vm_compute. reflexivity.
Qed.

(** C10: for every input, the empty string and whitespace-only strings
    included, [extract_name] returns a string that is not empty: the
    title-cased candidate, the title-cased first fallback match, or the
    sentinel "N/A (Failed Fallback)"; on a text of whitespace only it is
    the sentinel. *)
Theorem extract_name_never_empty `{PyRuntime} (raw : pystr) :
  extract_name raw <> []
  /\ (extract_name raw = str_title (name_candidate raw)
      \/ (exists m l, findall name_re raw = m :: l
                      /\ extract_name raw = str_title m)
      \/ extract_name raw = py "N/A (Failed Fallback)")
  /\ (forallb isspace raw = true ->
      extract_name raw = py "N/A (Failed Fallback)").
Proof.
  rewrite extract_name_unfold. pose proof (findall_name raw) as f.
  split; [|split].
  - destruct (not_a_name (name_candidate raw)) eqn:e.
    + destruct (findall name_re raw) as [|m l]; [discriminate|].
      destruct f as (u & v & [_ t] & _). apply str_title_nonempty.
      apply title_sequence_upper in t. destruct t as (c & t & -> & _).
      discriminate.
    + apply str_title_nonempty. unfold not_a_name in e.
      apply orb_false_iff in e. destruct e as [_ e].
      apply Nat.ltb_ge in e. destruct (name_candidate raw); simpl in e;
        [lia | discriminate].
  - destruct (not_a_name (name_candidate raw)); auto.
    destruct (findall name_re raw) as [|m l]; auto.
    right; left. exists m, l. auto.
  - intros b. rewrite name_candidate_blank by exact b. simpl.
    destruct (findall name_re raw) as [|m l]; trivial.
    destruct f as (u & v & [e t] & _).
    apply title_sequence_upper in t. destruct t as (c & t & -> & uc).
    rewrite e, forallb_app in b. apply andb_prop in b. destruct b as [_ b].
    simpl in b. apply andb_prop in b. destruct b as [b _].
    exfalso. clear - uc b. code_points.
Qed.

(** C9: with the model loaded, [extract_nlp_entities] returns at most 5
    strings without repetition, each "<text> (<LABEL>)" for a span of the
    model that is labelled ORG or DATE or whose text holds "education" or
    "experience" in any case, and that is labelled DATE or has more than
    one whitespace-separated token; with no model it returns the
    model-not-loaded error value. *)
Theorem extract_nlp_entities_filtered `{PyRuntime} (w : world) (text : pystr) :
  (forall model, nlp w = Some model ->
   exists l, extract_nlp_entities w text = VList l
     /\ length l <= 5 /\ NoDup l
     /\ forall x, In x l ->
        exists e, In e (model text)
          /\ x = strip (ent_text e) ++ py " (" ++ ent_label e ++ py ")"
          /\ (ent_label e = py "ORG" \/ ent_label e = py "DATE"
              \/ contains (py "education") (str_lower (ent_text e)) = true
              \/ contains (py "experience") (str_lower (ent_text e)) = true)
          /\ (ent_label e = py "DATE"
              \/ 1 < length (split_ws (strip (ent_text e)))))
  /\ (nlp w = None ->
      extract_nlp_entities w text
      = VDict [(py "error", py "NLP model not loaded. Check setup.")]).
Proof.
  unfold extract_nlp_entities. split.
  - intros model ->. eexists. split; [reflexivity|]. split; [|split].
    + apply firstn_le_length.
    + apply firstn_nodup, set_to_list_nodup.
    + intros x i. apply firstn_in, set_to_list_in, in_map_iff in i.
      destruct i as (e & <- & i). apply filter_In in i.
      destruct i as [i c]. apply andb_prop in c. destruct c as [r s].
      exists e. split; trivial. split; [reflexivity|]. split.
      * unfold ent_relevant in r. rewrite !orb_true_iff in r.
        rewrite !pystr_eqb_eq in r. tauto.
      * unfold ent_substantial in s. rewrite orb_true_iff in s.
        rewrite pystr_eqb_eq, Nat.ltb_lt in s. tauto.
  - intros ->. reflexivity.
Qed.

(** ** Theorems about the aggregator *)

(** C1 fails on the code: the text of this PDF is extracted without any
    failure, and because its second line holds the word "Error",
    [parse_resume] returns a record with the error field only. *)
Lemma parse_resume_rejects_error_word :
  pdf_pages (pdf_world [Some resume_with_error_word]) (py "cv.pdf")
  = Opened [Some resume_with_error_word]
  /\ extract_text_from_pdf (pdf_world [Some resume_with_error_word]) (py "cv.pdf")
     = resume_with_error_word
  /\ parse_resume (pdf_world [Some resume_with_error_word]) (py "cv.pdf")
     = [(py "error", VStr resume_with_error_word)].
Proof. repeat split. Qed.

(** C2: the record that [parse_resume] returns has either the error
    field alone, or the seven fields of a full record and no error
    field. *)
Theorem parse_resume_one_shape `{PyRuntime} (w : world) (file_path : pystr) :
  (exists message, parse_resume w file_path = [(py "error", VStr message)])
  \/ (keys (parse_resume w file_path)
      = [py "name"; py "email"; py "phone"; py "urls"; py "skills";
         py "nlp_entities"; py "raw_text_length"]
      /\ ~ In (py "error") (keys (parse_resume w file_path))).
Proof.
  assert (forall raw,
    (exists message, assemble w raw = [(py "error", VStr message)])
    \/ (keys (assemble w raw) = parsed_keys
        /\ ~ In (py "error") (keys (assemble w raw)))) as shape.
  { intros raw. unfold assemble. destruct (contains (py "Error") raw).
    - left. eauto.
    - right. split; [reflexivity|]. simpl.
      intros [e|[e|[e|[e|[e|[e|[e|[]]]]]]]]; discriminate e. }
  unfold parse_resume.
  destruct (ends_with (py ".pdf") (str_lower file_path)); [apply shape|].
  destruct (ends_with (py ".docx") (str_lower file_path)); [apply shape|].
  left. eauto.
Qed.


Lemma page_texts_none pages :
  (forall p, In p pages -> page_text p = None) -> page_texts pages = [].
Proof.
  induction pages as [|p t IH]; simpl; trivial. intros h.
  rewrite (h p) by auto. apply IH. auto.
Qed.




(** What [parse_resume] returns when no text comes out of the document:
    for an extension other than pdf and docx the unsupported-type record,
    and for each exception of the PDF or DOCX library a record with the
    error field only, whose message is "Error: File not found." when the
    exception is a [FileNotFoundError] and "Error extracting PDF: e" or
    "Error extracting DOCX: e" when it is any other exception [e]. *)
Lemma parse_resume_failure_is_error `{PyRuntime} (w : world) (file_path : pystr) :
  (ends_with (py ".pdf") (str_lower file_path) = false ->
   ends_with (py ".docx") (str_lower file_path) = false ->
   parse_resume w file_path
   = [(py "error", VStr (py "Unsupported file type. Must be PDF or DOCX."))])
  /\ (ends_with (py ".pdf") (str_lower file_path) = true ->
      (pdf_pages w file_path = FileNotFound ->
       parse_resume w file_path
       = [(py "error", VStr (py "Error: File not found."))])
      /\ (forall e, pdf_pages w file_path = Failed e ->
          parse_resume w file_path
          = [(py "error", VStr (py "Error extracting PDF: " ++ e))]))
  /\ (ends_with (py ".pdf") (str_lower file_path) = false ->
      ends_with (py ".docx") (str_lower file_path) = true ->
      (docx_paragraphs w file_path = FileNotFound ->
       parse_resume w file_path
       = [(py "error", VStr (py "Error: File not found."))])
      /\ (forall e, docx_paragraphs w file_path = Failed e ->
          parse_resume w file_path
          = [(py "error", VStr (py "Error extracting DOCX: " ++ e))])).
Proof.
  unfold parse_resume, extract_text_from_pdf, extract_text_from_docx.
  split; [|split].
  - intros -> ->. reflexivity.
  - intros ->. split; [intros -> | intros e ->]; reflexivity.
  - intros -> ->. split; [intros -> | intros e ->]; reflexivity.
Qed.

(** ** The functions on sample inputs *)

Example clean_resume_text_sample :
  clean_resume_text
    (py "Soft-" ++ [LF] ++ py "ware  Engineer" ++ [LF] ++ py " 12 " ++ [LF]
     ++ py "Hello" ++ [9%N] ++ py "World")
  = py "software engineer hello world".
Proof. reflexivity. Qed.

Example extract_email_sample :
  extract_email (py "contact: jane.doe@example.com now")
  = Some (py "jane.doe@example.com").
Proof. reflexivity. Qed.

Example extract_urls_sample :
  extract_urls (py "see https://github.com/janedoe and https://example.com")
  = [py "https://github.com/janedoe"].
Proof. reflexivity. Qed.

Example extract_name_sample :
  extract_name (py "  " ++ [LF] ++ py "  john-doe smith" ++ [LF] ++ py "Engineer")
  = py "Johndoe Smith".
Proof. reflexivity. Qed.

Example extract_name_fallback_sample :
  extract_name
    (py "Curriculum Vitae of the one and only person" ++ [LF] ++ py "John Smith")
  = py "Curriculum Vitae".
Proof. reflexivity. Qed.

Example extract_skills_sample :
  extract_skills (pdf_world []) (py "i know python, java and sql")
  = [py "python"; py "sql"].
Proof. reflexivity. Qed.

Example extract_skills_missing_sample :
  extract_skills
    {| pdf_pages := fun _ => FileNotFound;
       docx_paragraphs := fun _ => FileNotFound;
       skills_txt := None; nlp := None |} (py "i know python")
  = [py "WARNING: skills.txt missing. Cannot extract skills."].
Proof. reflexivity. Qed.

(** A model that reports four spans, whatever the text. *)
Definition four_spans (_ : pystr) : list span :=
  [ mkspan (py "acme corp") (py "ORG");
    mkspan (py "2019") (py "DATE");
    mkspan (py "python") (py "ORG");
    mkspan (py "work experience") (py "MISC");
    mkspan (py "acme corp") (py "ORG") ].

Example extract_nlp_entities_sample :
  extract_nlp_entities
    {| pdf_pages := fun _ => FileNotFound;
       docx_paragraphs := fun _ => FileNotFound;
       skills_txt := None; nlp := Some four_spans |} (py "any text")
  = VList [py "acme corp (ORG)"; py "2019 (DATE)"; py "work experience (MISC)"].
Proof. reflexivity. Qed.

Example parse_resume_sample :
  parse_resume (pdf_world [Some (py "Jane Doe"); None;
                           Some (py "jane@x.org 555 123 4567 SQL")])
               (py "Jane.PDF")
  = [ (py "name", VStr (py "Jane Doe"));
      (py "email", VStr (py "jane@x.org"));
      (py "phone", VStr (py "5551234567"));
      (py "urls", VList []);
      (py "skills", VList [py "sql"]);
      (py "nlp_entities", VList []);
      (py "raw_text_length", VInt 36) ].
Proof. reflexivity. Qed.

(** * Further properties of the code *)

(** ** Every match that [re.findall] reports *)

Section ScanAll.
Context `{PyRuntime}.

(** Each item of [scan] is a match at some position of the subject. *)
Lemma scan_in r : forall s sn skip w cs,
  In (w, cs) (scan r sn s skip) ->
  exists i n, i <= length s
    /\ match_at r (at_index sn s i) = Some (n, cs)
    /\ w = firstn n (skipn i s).
Proof.
  induction s as [|c t IH]; intros sn skip w cs; simpl.
  - destruct skip; [|intros []].
    destruct (match_at r (mkpos sn [])) as [[n cs0]|] eqn:e; [|intros []].
    intros [[= <- <-]|[]]. exists 0, n. repeat split; trivial.
    rewrite firstn_nil. reflexivity.
  - destruct skip as [|k].
    + destruct (match_at r (mkpos sn (c :: t))) as [[n cs0]|] eqn:e.
      * intros [[= <- <-]|i].
        -- exists 0, n. repeat split; trivial. lia.
        -- destruct (IH _ _ _ _ i) as (j & m & lj & ma & ew).
           exists (S j), m. rewrite at_index_S. repeat split; trivial.
           simpl. lia.
      * intros i. destruct (IH _ _ _ _ i) as (j & m & lj & ma & ew).
        exists (S j), m. rewrite at_index_S. repeat split; trivial.
        simpl. lia.
    + intros i. destruct (IH _ _ _ _ i) as (j & m & lj & ma & ew).
      exists (S j), m. rewrite at_index_S. repeat split; trivial.
      simpl. lia.
Qed.

(** For a pattern without groups and without [\b], every string that
    [re.findall] returns is a piece of the text in the language of the
    pattern. *)
Lemma findall_in r text w :
  context_free r = true -> ngroups r = 0 ->
  In w (findall r text) -> exists u v, occurrence (lang r) text u w v.
Proof.
  intros cf ng i. unfold findall in i. rewrite ng in i.
  apply in_map_iff in i. destruct i as ([w' cs] & <- & i). simpl.
  apply scan_in in i. destruct i as (j & n & lj & m & ->).
  destruct (@match_occurrence _ r text j n cs cf lj m) as (v & o & _).
  eauto.
Qed.

Lemma lang_plus_cls f t :
  lang (Plus (Cls f)) t <-> t <> [] /\ forallb f t = true.
Proof.
  unfold Plus. rewrite lang_rep_cls. unfold within.
  destruct t as [|c t]; simpl.
  - split; [intros (l & _); lia | intros (n & _); congruence].
  - split.
    + intros (_ & _ & a). split; [discriminate | exact a].
    + intros (_ & a). repeat split; trivial. lia.
Qed.
End ScanAll.

(** ** E-mail addresses *)

Section Email.
Context `{PyRuntime}.

(** A run of e-mail characters, an at sign, a run of e-mail characters. *)
Definition email_shape (e : pystr) : Prop :=
  exists a b, e = a ++ [ch "@"] ++ b /\ a <> [] /\ b <> []
              /\ forallb email_char a = true /\ forallb email_char b = true.

Lemma email_re_shape e : lang email_re e <-> email_shape e.
Proof.
  unfold email_re, email_shape. split.
  - intros l. apply lang_cat in l. destruct l as (x & b & -> & lx & lb).
    apply lang_cat in lx. destruct lx as (a & at' & -> & la & lat).
    apply lang_plus_cls in la, lb. apply lang_chr in lat. subst at'.
    exists a, b. rewrite <- app_assoc. tauto.
  - intros (a & b & -> & na & nb & fa & fb).
    apply lang_cat. exists (a ++ [ch "@"]), b.
    split; [rewrite <- app_assoc; reflexivity|].
    split; [|apply lang_plus_cls; auto].
    apply lang_cat. exists a, [ch "@"]. split; [reflexivity|].
    split; [apply lang_plus_cls; auto | apply lang_chr; reflexivity].
Qed.

Lemma at_not_email_char : email_char (ch "@") = false.
Proof. reflexivity. Qed.

(** An at sign with an e-mail character on each side. *)
Definition flanked_at (text : pystr) : Prop :=
  exists u c1 c2 v, text = u ++ [c1; ch "@"; c2] ++ v
                    /\ email_char c1 = true /\ email_char c2 = true.

Lemma email_shape_flanked text :
  (exists u e v, occurrence email_shape text u e v) <-> flanked_at text.
Proof.
  split.
  - intros (u & e & v & -> & a & b & -> & na & nb & fa & fb).
    destruct (exists_last na) as (a' & c1 & ->).
    destruct b as [|c2 b']; [congruence|].
    exists (u ++ a'), c1, c2, (b' ++ v).
    rewrite forallb_app in fa. apply andb_prop in fa. destruct fa as [_ f1].
    simpl in f1, fb. apply andb_prop in f1, fb.
    split; [|tauto]. simpl. rewrite <- !app_assoc. reflexivity.
  - intros (u & c1 & c2 & v & -> & f1 & f2).
    exists u, [c1; ch "@"; c2], v. split; trivial.
    exists [c1], [c2]. simpl. rewrite f1, f2. repeat split; discriminate.
Qed.

Lemma findall_email text :
  match findall email_re text with
  | [] => forall u e v, ~ occurrence email_shape text u e v
  | e :: _ => exists u v, occurrence email_shape text u e v
                          /\ leftmost email_shape text u
  end.
Proof.
  unfold findall. change (ngroups email_re) with 0.
  destruct (scan email_re [] text 0) as [|[w cs] l] eqn:e; simpl.
  - intros u m v [eq sh]. apply email_re_shape in sh.
    apply (proj1 (@scan_none _ email_re text eq_refl eq_refl)) with (u := u)
      (w := m) (v := v) in e. apply e. split; trivial.
  - apply (@scan_first _ email_re text w cs l eq_refl eq_refl) in e.
    destruct e as (i & n & u & v & m & ew & [eq l'] & lm).
    exists u, v. split; [split; trivial; apply email_re_shape, l'|].
    intros u' w' v' [eq' sh]. apply (lm u' w' v'). split; trivial.
    apply email_re_shape, sh.
Qed.

(** [extract_email] returns the leftmost piece of the text that has the
    shape of an address, and null exactly when no at sign of the text
    stands between two e-mail characters. *)
Theorem extract_email_leftmost (text : pystr) :
  match extract_email text with
  | Some e => exists u v, occurrence email_shape text u e v
                          /\ leftmost email_shape text u
  | None => True
  end
  /\ (extract_email text = None <-> ~ flanked_at text).
Proof.
  pose proof (findall_email text) as f. unfold extract_email.
  destruct (findall email_re text) as [|e l].
  - split; trivial. split; trivial. intros _ fl.
    apply email_shape_flanked in fl. destruct fl as (u & e & v & o).
    apply (f u e v o).
  - split; [exact f|]. split; [discriminate|]. intros nf. destruct nf.
    apply email_shape_flanked. destruct f as (u & v & o & _). eauto.
Qed.

(** The address that [extract_email] returns holds exactly one at sign,
    and the character before it in the text, if any, is not an e-mail
    character: the local part is taken whole. *)
Theorem extract_email_one_at (text e : pystr) :
  extract_email text = Some e ->
  count_occ N.eq_dec e (ch "@") = 1
  /\ exists u v, text = u ++ e ++ v
       /\ forall u' c, u = u' ++ [c] -> email_char c = false.
Proof.
  intros ee. pose proof (findall_email text) as f. unfold extract_email in ee.
  destruct (findall email_re text) as [|e' l']; [discriminate ee|].
  injection ee as ->. destruct f as (u & v & [et sh] & lm).
  assert (forall l, forallb email_char l = true ->
                    count_occ N.eq_dec l (ch "@") = 0) as none.
  { induction l as [|c t IH]; simpl; trivial. intros a.
    apply andb_prop in a. destruct a as [ac at'].
    destruct (N.eq_dec c 64) as [->|_]; [|apply IH, at'].
    change 64%N with (ch "@") in ac. rewrite at_not_email_char in ac.
    discriminate ac. }
  split.
  - destruct sh as (a & b & -> & _ & _ & fa & fb).
    rewrite !count_occ_app, (none _ fa), (none _ fb). reflexivity.
  - exists u, v. split; trivial. intros u' c -> .
    destruct (email_char c) eqn:ec; trivial. exfalso.
    assert (occurrence email_shape text u' (c :: e) v) as o.
    { split; [rewrite et, <- app_assoc; reflexivity|].
      destruct sh as (a & b & -> & na & nb & fa & fb).
      exists (c :: a), b. simpl. rewrite ec, fa. repeat split; trivial.
      discriminate. }
    apply lm in o. rewrite length_app in o. simpl in o. lia.
Qed.
End Email.

Lemma extract_email_one_at_witness :
  count_occ N.eq_dec (py "jane.doe@example.com") (ch "@") = 1
  /\ exists u v, py "contact: jane.doe@example.com now"
                 = u ++ py "jane.doe@example.com" ++ v
       /\ forall u' c, u = u' ++ [c] -> email_char c = false.
Proof.
  apply (@extract_email_one_at ascii_runtime
           (py "contact: jane.doe@example.com now")).
  reflexivity.
Defined.

(** ** URLs *)

Section Urls.
Context `{PyRuntime}.

(** A character that the URL pattern accepts after the scheme. *)
Definition url_char (c : N) : bool :=
  is_ascii_letter c || is_ascii_digit c || url_punct c || url_paren c.

(** [http://] or [https://] and at least one URL character. *)
Definition url_shape (u : pystr) : Prop :=
  exists tail, (u = py "http://" ++ tail \/ u = py "https://" ++ tail)
               /\ tail <> [] /\ forallb url_char tail = true.

Lemma lang_lit s w : lang (Lit s) w <-> w = s.
Proof.
  revert w. induction s as [|c t IH]; intros w.
  - reflexivity.
  - change (Lit (c :: t)) with (Chr c >> Lit t)%re. rewrite lang_cat. split.
    + intros (u & v & -> & lu & lv). apply lang_chr in lu. apply IH in lv.
      subst. reflexivity.
    + intros ->. exists [c], t. repeat split.
      * apply lang_chr. reflexivity.
      * apply IH. reflexivity.
Qed.

Lemma hex_url_char c : is_hex c = true -> url_char c = true.
Proof.
  intros h.
  assert (is_ascii_letter c || is_ascii_digit c = true) as e.
  { unfold is_hex, ch in h. simpl N_of_ascii in h. unfold is_ascii_letter.
    code_points. }
  unfold url_char. rewrite e. reflexivity.
Qed.

(** One round of the repeated group of the URL pattern. *)
Lemma url_piece w :
  lang (Cls is_ascii_letter <|> Cls is_ascii_digit <|> Cls url_punct
        <|> Cls url_paren <|> (Chr (ch "%") >> Cls is_hex >> Cls is_hex)) w ->
  w <> [] /\ forallb url_char w = true.
Proof.
  cbn [lang]. unfold url_char.
  intros [[[[(c & -> & e)|(c & -> & e)]|(c & -> & e)]|(c & -> & e)]|l].
  - split; [discriminate|]. simpl. rewrite e. reflexivity.
  - split; [discriminate|]. simpl. rewrite e, !orb_true_r. reflexivity.
  - split; [discriminate|]. simpl. rewrite e, !orb_true_r. reflexivity.
  - split; [discriminate|]. simpl. rewrite e, !orb_true_r. reflexivity.
  - destruct l as (? & h2 & -> & (pc & h1 & -> & lp & (c1 & -> & e1))
                   & (c2 & -> & e2)).
    apply lang_chr in lp. subst pc. split; [discriminate|].
    apply hex_url_char in e1, e2. unfold url_char in e1, e2.
    simpl. rewrite e1, e2. reflexivity.
Qed.

Lemma url_pieces (L : pystr -> Prop) n w :
  (forall x, L x -> x <> [] /\ forallb url_char x = true) ->
  power n L w -> forallb url_char w = true /\ (0 < n -> w <> []).
Proof.
  intros piece. revert w. induction n as [|n IH]; simpl; intros w.
  - intros ->. split; [reflexivity | lia].
  - intros (u & v & -> & lu & pv). destruct (piece _ lu) as [nu fu].
    destruct (IH _ pv) as [fv _]. rewrite forallb_app, fu, fv.
    split; trivial. intros _ e. apply app_eq_nil in e. tauto.
Qed.

Lemma lang_rep r lo hi w :
  lang (Rep r lo hi) w <->
  exists n, lo <= n /\ within n hi /\ power n (lang r) w.
Proof. reflexivity. Qed.

Lemma url_re_shape u : lang url_re u -> url_shape u.
Proof.
  unfold url_re. intros l.
  apply lang_cat in l. destruct l as (x & tail & -> & lx & lt).
  apply lang_cat in lx. destruct lx as (y & sl & -> & ly & lsl).
  apply lang_cat in ly. destruct ly as (h & s & -> & lh & ls).
  apply lang_lit in lh, lsl. subst h sl. apply lang_opt in ls.
  unfold Plus in lt. apply lang_rep in lt. destruct lt as (n & ln & _ & pw).
  eapply url_pieces in pw; [|apply url_piece]. destruct pw as [ft nt].
  exists tail. split; [|split; trivial; apply nt; lia].
  destruct ls as [->|ls].
  - left. reflexivity.
  - right. apply lang_chr in ls. subst s. reflexivity.
Qed.

Lemma url_char_not_space c : url_char c = true -> isspace c = false.
Proof.
  unfold url_char, url_punct, url_paren, is_ascii_letter, ch.
  simpl N_of_ascii. intros u. code_points.
Qed.

(** Every URL that [extract_urls] returns is a piece of the text, starts
    with [http://] or [https://], goes on with one or more URL characters,
    holds no whitespace, and mentions linkedin or github in some case. *)
Theorem extract_urls_shape (text u : pystr) :
  In u (extract_urls text) ->
  (exists a b, text = a ++ u ++ b)
  /\ url_shape u
  /\ (forall c, In c u -> isspace c = false)
  /\ (contains (py "linkedin") (str_lower u) = true
      \/ contains (py "github") (str_lower u) = true).
Proof.
  unfold extract_urls. intros i. apply filter_In in i. destruct i as [i k].
  apply (@findall_in _ url_re text u eq_refl eq_refl) in i.
  destruct i as (a & b & e & l). apply url_re_shape in l.
  split; [eauto|]. split; [exact l|]. split; [|apply orb_prop, k].
  destruct l as (tail & pre & _ & ft). rewrite forallb_forall in ft.
  intros c ic. destruct pre as [-> | ->]; apply in_app_or in ic;
    (destruct ic as [ic|ic]; [|apply url_char_not_space, ft, ic]);
    simpl in ic; repeat (destruct ic as [<-|ic]; [reflexivity|]);
    destruct ic.
Qed.
End Urls.

Lemma extract_urls_shape_witness :
  (exists a b, py "see https://github.com/janedoe and https://example.com"
               = a ++ py "https://github.com/janedoe" ++ b)
  /\ url_shape (py "https://github.com/janedoe")
  /\ (forall c, In c (py "https://github.com/janedoe") -> isspace c = false)
  /\ (contains (py "linkedin") (str_lower (py "https://github.com/janedoe")) = true
      \/ contains (py "github") (str_lower (py "https://github.com/janedoe")) = true).
Proof.
  apply (@extract_urls_shape ascii_runtime
           (py "see https://github.com/janedoe and https://example.com")).
  vm_compute. auto.
Defined.

(** ** More on the normalizer *)

Section NormalizerMore.
Context `{PyRuntime}.

(** The output of [clean_resume_text] holds no upper-case ASCII letter,
    its only whitespace character is the space, and it neither starts nor
    ends with whitespace. *)
Theorem clean_resume_text_lower_trimmed (raw : pystr) :
  (forall c, In c (clean_resume_text raw) -> is_upper c = false)
  /\ (forall c, In c (clean_resume_text raw) -> isspace c = true -> c = SP)
  /\ (forall c t, clean_resume_text raw = c :: t -> isspace c = false)
  /\ (forall t c, clean_resume_text raw = t ++ [c] -> isspace c = false)
  /\ strip (clean_resume_text raw) = clean_resume_text raw.
Proof.
  pose proof (clean_resume_text_normalized raw) as n.
  split; [|split; [|split; [|split]]].
  - intros c i. pose proof (norm_lower n) as l. rewrite forallb_forall in l.
    apply negb_true_iff, l, i.
  - intros c i. apply (single_spaced_spaces _ _ (norm_spaced n) i).
  - intros c t e. pose proof (norm_head n) as h. rewrite e in h. exact h.
  - intros t c e. pose proof (norm_last n) as h.
    rewrite e, rev_app_distr in h. exact h.
  - apply strip_id; [apply (norm_head n) | apply (norm_last n)].
Qed.

(** A pattern that cannot match without a character of some kind finds
    nothing in a text that has none. *)
Lemma matchless_lacking (P : N -> bool) r :
  (forall p q, den r p q -> exists c, In c (rest p) /\ P c = true) ->
  forall sn s, (forall c, In c s -> P c = false) -> matchless r sn s.
Proof.
  intros need sn s lack i li.
  destruct (match_at r (at_index sn s i)) as [[n cs]|] eqn:e; trivial.
  apply match_at_sound in e. destruct e as (q & w & d & _).
  apply need in d. destruct d as (c & ic & pc). simpl in ic.
  rewrite lack in pc; [discriminate|].
  rewrite <- (firstn_skipn i s). apply in_or_app. auto.
Qed.

Lemma hyphen_re_needs_letter p q :
  den hyphen_re p q -> exists c, In c (rest p) /\ is_letter_ic c = true.
Proof.
  unfold hyphen_re. intros d.
  apply den_cat in d. destruct d as (m5 & d & _).
  apply den_cat in d. destruct d as (m4 & d & _).
  apply den_cat in d. destruct d as (m3 & d & _).
  apply den_cat in d. destruct d as (m2 & d & _).
  apply den_cat in d. destruct d as (m1 & d & _).
  simpl in d. destruct d as (c & st & lc). apply step_advance in st.
  destruct st as [e _]. exists c. rewrite e. simpl. auto.
Qed.

Lemma pagenum_re_needs_digit p q :
  den pagenum_re p q -> exists c, In c (rest p) /\ is_digit c = true.
Proof.
  unfold pagenum_re. intros d.
  apply den_cat in d. destruct d as (m4 & d & _).
  apply den_cat in d. destruct d as (m3 & d & _).
  apply den_cat in d. destruct d as (m2 & d & dd).
  destruct (den_span _ _ _ d) as (w & [e _] & _).
  unfold Plus, digit in dd. simpl in dd.
  destruct dd as ([|n] & ln & _ & it); [lia|].
  simpl in it. destruct it as (m & (c & st & dc) & _).
  apply step_advance in st. destruct st as [e' _].
  exists c. rewrite e, e'. split; trivial. apply in_or_app. simpl. auto.
Qed.

Lemma letter_not_space c : isspace c = true -> is_letter_ic c = false.
Proof.
  intros sc. unfold is_letter_ic, is_ascii_letter. code_points.
Qed.

Lemma collapse_blank f b s :
  forallb isspace s = true -> forallb isspace (collapse f SP b s) = true.
Proof.
  intros a. apply collapse_forallb; [reflexivity|].
  rewrite forallb_forall in a. auto.
Qed.

(** A text of whitespace only is normalized to the empty string. *)
Theorem clean_resume_text_blank (raw : pystr) :
  forallb isspace raw = true -> clean_resume_text raw = [].
Proof.
  intros b. unfold clean_resume_text. destruct raw as [|c t] eqn:er; trivial.
  rewrite <- er in *. clear er c t.
  assert (forall c, In c raw -> isspace c = true) as blanks
      by (apply forallb_forall, b).
  assert (matchless hyphen_re [] raw) as m1.
  { eapply matchless_lacking; [intros p q; apply hyphen_re_needs_letter|].
    intros c i. apply letter_not_space, blanks, i. }
  assert (matchless pagenum_re [] raw) as m2.
  { eapply matchless_lacking; [intros p q; apply pagenum_re_needs_digit|].
    intros c i. apply space_not_digit, blanks, i. }
  unfold sub at 4. rewrite (sub_go_matchless _ m1).
  unfold sub at 3. rewrite (sub_go_matchless _ m2).
  unfold nonascii_re, spaces_re, ws. rewrite !sub_plus.
  unfold strip. rewrite lstrip_blank.
  - apply (str_lower_ascii []). reflexivity.
  - apply collapse_blank, collapse_blank, b.
Qed.
End NormalizerMore.

Lemma clean_resume_text_blank_witness :
  clean_resume_text ([SP; SP; LF; 9; 160; SP]%N) = [].
Proof.
  apply (@clean_resume_text_blank ascii_runtime). reflexivity.
Defined.

(** ** The text of a document *)

Section Documents.
Context `{PyRuntime}.

Lemma split_on_line l :
  ~ In LF l -> split_on LF l = [l].
Proof.
  induction l as [|c t IH]; simpl; trivial. intros n.
  destruct (c =? LF)%N eqn:e.
  - apply N.eqb_eq in e. destruct n. auto.
  - rewrite IH by auto. reflexivity.
Qed.

Lemma split_on_line_more l s :
  ~ In LF l -> split_on LF (l ++ LF :: s) = l :: split_on LF s.
Proof.
  induction l as [|c t IH]; simpl; intros n.
  - reflexivity.
  - destruct (c =? LF)%N eqn:e.
    + apply N.eqb_eq in e. destruct n. auto.
    + rewrite IH by auto. reflexivity.
Qed.

Lemma split_join (l : list pystr) :
  l <> [] -> (forall p, In p l -> ~ In LF p) ->
  split_on LF (join [LF] l) = l.
Proof.
  induction l as [|p t IH]; [congruence|]. intros _ free.
  destruct t as [|p' t'].
  - simpl. apply split_on_line, free. simpl. auto.
  - change (join [LF] (p :: p' :: t')) with (p ++ LF :: join [LF] (p' :: t')).
    rewrite split_on_line_more by (apply free; simpl; auto).
    rewrite IH; [reflexivity | discriminate|].
    intros q i. apply free. simpl in *. tauto.
Qed.

(** The text of a DOCX document keeps its paragraphs apart: when no
    paragraph holds a line break, splitting the extracted text at the
    newlines gives the paragraphs back, the empty ones included. *)
Theorem extract_text_from_docx_paragraphs
    (w : world) (file_path : pystr) (paragraphs : list pystr) :
  docx_paragraphs w file_path = Opened paragraphs ->
  paragraphs <> [] ->
  (forall p, In p paragraphs -> ~ In LF p) ->
  split_on LF (extract_text_from_docx w file_path) = paragraphs.
Proof.
  intros o ne free. unfold extract_text_from_docx. rewrite o.
  apply split_join; trivial.
Qed.

Lemma page_texts_nonempty pages x : In x (page_texts pages) -> x <> [].
Proof.
  induction pages as [|p t IH]; simpl; [tauto|].
  destruct p as [[|c s]|]; simpl; auto.
  intros [<-|i]; [discriminate | auto].
Qed.

Lemma page_texts_nil pages :
  page_texts pages = [] -> forall p, In p pages -> page_text p = None.
Proof.
  induction pages as [|p t IH]; simpl; [tauto|].
  destruct (page_text p) eqn:e; [discriminate|].
  intros n q [<-|i]; auto.
Qed.

Lemma join_nil (l : list pystr) :
  (forall x, In x l -> x <> []) -> join [LF] l = [] -> l = [].
Proof.
  destruct l as [|x [|y t]]; trivial; intros ne e.
  - destruct (ne x); simpl; auto.
  - simpl in e. apply app_eq_nil in e. destruct e as [_ e]. discriminate e.
Qed.

(** For a PDF that opens, the extracted text is empty exactly when no
    page yields text. *)
Theorem extract_text_from_pdf_empty
    (w : world) (file_path : pystr) (pages : list (option pystr)) :
  pdf_pages w file_path = Opened pages ->
  (extract_text_from_pdf w file_path = []
   <-> forall p, In p pages -> page_text p = None).
Proof.
  intros o. unfold extract_text_from_pdf. rewrite o. split.
  - intros e. apply page_texts_nil, join_nil; trivial.
    apply page_texts_nonempty.
  - intros b. rewrite (page_texts_none _ b). reflexivity.
Qed.
End Documents.

Lemma extract_text_from_docx_paragraphs_witness :
  split_on LF
    (extract_text_from_docx
       {| pdf_pages := fun _ => FileNotFound;
          docx_paragraphs := fun _ => Opened [py "Jane Doe"; []; py "Engineer"];
          skills_txt := None; nlp := None |} (py "cv.docx"))
  = [py "Jane Doe"; []; py "Engineer"].
Proof.
  apply extract_text_from_docx_paragraphs.
  - reflexivity.
  - discriminate.
  - intros p [<-|[<-|[<-|[]]]]; vm_compute; intuition discriminate.
Defined.

Lemma extract_text_from_pdf_empty_witness :
  extract_text_from_pdf (pdf_world [None; Some []]) (py "scan.pdf") = []
  <-> forall p, In p [None; Some []] -> page_text p = None.
Proof.
  apply extract_text_from_pdf_empty. reflexivity.
Defined.

(** ** The fields of a parsed record *)

Section Fields.
Context `{PyRuntime}.

(** A field other than [error] comes from a text that was extracted and
    does not hold the word "Error". *)
Lemma parse_resume_field (w : world) (file_path k : pystr) (v : value) :
  In (k, v) (parse_resume w file_path) -> k <> py "error" ->
  exists raw_text,
    contains (py "Error") raw_text = false
    /\ In (k, v)
         [ (py "name", VStr (extract_name raw_text));
           (py "email", opt_str (extract_email (clean_resume_text raw_text)));
           (py "phone",
            opt_str (extract_phone_number (clean_resume_text raw_text)));
           (py "urls", VList (extract_urls (clean_resume_text raw_text)));
           (py "skills", VList (extract_skills w (clean_resume_text raw_text)));
           (py "nlp_entities",
            extract_nlp_entities w (clean_resume_text raw_text));
           (py "raw_text_length", VInt (length raw_text)) ].
Proof.
  assert (forall raw, In (k, v) (assemble w raw) -> k <> py "error" ->
            contains (py "Error") raw = false) as ok.
  { intros raw i ne. unfold assemble in i.
    destruct (contains (py "Error") raw); trivial.
    destruct i as [e|[]]. injection e as e1 e2. destruct ne. symmetry.
    exact e1. }
  unfold parse_resume. intros i ne.
  destruct (ends_with (py ".pdf") (str_lower file_path)).
  - exists (extract_text_from_pdf w file_path). split; [eapply ok; eauto|].
    unfold assemble in i. rewrite (ok _ i ne) in i. exact i.
  - destruct (ends_with (py ".docx") (str_lower file_path)).
    + exists (extract_text_from_docx w file_path). split; [eapply ok; eauto|].
      unfold assemble in i. rewrite (ok _ i ne) in i. exact i.
    + destruct i as [e|[]]. injection e as e1 e2. destruct ne. symmetry.
      exact e1.
Qed.

Lemma extract_phone_number_some text p :
  extract_phone_number text = Some p ->
  exists u c v, occurrence phone_shape text u c v
                /\ p = digits_of c /\ 10 <= length p <= 15.
Proof.
  pose proof (findall_phone text) as f. unfold extract_phone_number.
  destruct (findall phone_re text) as [|c l]; simpl; [discriminate|].
  destruct f as (u & v & o & _). rewrite sub_nondigit.
  pose proof (phone_shape_digits (proj2 o)) as d. unfold phone_len_ok.
  destruct d as [d1 d2]. apply Nat.leb_le in d1, d2. rewrite d1, d2. simpl.
  apply Nat.leb_le in d1, d2. intros [= <-]. exists u, c, v. auto.
Qed.

Lemma piece_forallb (f : N -> bool) (text u x v : pystr) :
  text = u ++ x ++ v -> forallb f text = true -> forallb f x = true.
Proof. intros ->. apply forallb_app_inv. Qed.

(** The phone number of a parsed record is a string of 10 to 15 of the
    characters 0 to 9. *)
Theorem parse_resume_phone_digits (w : world) (file_path p : pystr) :
  In (py "phone", VStr p) (parse_resume w file_path) ->
  10 <= length p <= 15 /\ forallb is_ascii_digit p = true.
Proof.
  intros i. apply parse_resume_field in i; [|discriminate].
  destruct i as (raw & _ & i).
  destruct i as [e|[e|[e|[e|[e|[e|[e|[]]]]]]]]; try discriminate e.
  injection e as e.
  destruct (extract_phone_number (clean_resume_text raw)) as [p'|] eqn:ep;
    [|discriminate e].
  simpl in e. injection e as ->.
  apply extract_phone_number_some in ep.
  destruct ep as (u & c & v & [et _] & -> & l). split; trivial.
  pose proof (norm_ascii (clean_resume_text_normalized raw)) as a.
  apply (@piece_forallb _ _ _ _ _ et) in a.
  unfold digits_of. rewrite forallb_forall in *. intros x ix.
  apply filter_In in ix. destruct ix as [ix dx]. specialize (a x ix).
  unfold is_digit in dx. rewrite a in dx. exact dx.
Qed.

Lemma email_char_ascii_not_space c :
  is_ascii c = true -> email_char c = true -> isspace c = false.
Proof.
  unfold email_char, is_word, ch. simpl N_of_ascii. intros a. rewrite a.
  unfold is_ascii_letter. intros e. code_points.
Qed.

(** The e-mail address and the URLs of a parsed record are pieces of the
    normalized text: ASCII, with no upper-case letter, whatever the case
    of the document, and the address holds no whitespace. *)
Theorem parse_resume_contact_lower (w : world) (file_path : pystr) :
  (forall e, In (py "email", VStr e) (parse_resume w file_path) ->
     forall c, In c e ->
       is_ascii c = true /\ is_upper c = false /\ isspace c = false)
  /\ (forall l u, In (py "urls", VList l) (parse_resume w file_path) ->
      In u l ->
      forall c, In c u -> is_ascii c = true /\ is_upper c = false).
Proof.
  split.
  - intros e i. apply parse_resume_field in i; [|discriminate].
    destruct i as (raw & _ & i).
    destruct i as [d|[d|[d|[d|[d|[d|[d|[]]]]]]]]; try discriminate d.
    injection d as d.
    destruct (extract_email (clean_resume_text raw)) as [e'|] eqn:ee;
      [|discriminate d].
    simpl in d. injection d as ->.
    pose proof (findall_email (clean_resume_text raw)) as f.
    unfold extract_email in ee.
    destruct (findall email_re (clean_resume_text raw)) as [|e'' l''];
      [discriminate ee|].
    injection ee as ->. destruct f as (u & v & [et sh] & _).
    pose proof (clean_resume_text_normalized raw) as n.
    pose proof (@piece_forallb _ _ _ _ _ et (norm_ascii n)) as a.
    pose proof (@piece_forallb _ _ _ _ _ et (norm_lower n)) as lo.
    rewrite forallb_forall in a, lo. intros c ic.
    split; [auto|]. split; [apply negb_true_iff; auto|].
    destruct sh as (x & y & -> & _ & _ & fx & fy).
    rewrite forallb_forall in fx, fy.
    apply in_app_or in ic. destruct ic as [ic|ic].
    + apply email_char_ascii_not_space; auto.
      apply a, in_or_app. auto.
    + simpl in ic. destruct ic as [<-|ic]; [reflexivity|].
      apply email_char_ascii_not_space; auto.
      apply a, in_or_app. simpl. auto.
  - intros l u i iu. apply parse_resume_field in i; [|discriminate].
    destruct i as (raw & _ & i).
    destruct i as [d|[d|[d|[d|[d|[d|[d|[]]]]]]]]; try discriminate d.
    injection d as <-.
    unfold extract_urls in iu. apply filter_In in iu. destruct iu as [iu _].
    apply (@findall_in _ url_re _ u eq_refl eq_refl) in iu.
    destruct iu as (a & b & et & _).
    pose proof (clean_resume_text_normalized raw) as n.
    pose proof (@piece_forallb _ _ _ _ _ et (norm_ascii n)) as asc.
    pose proof (@piece_forallb _ _ _ _ _ et (norm_lower n)) as lo.
    rewrite forallb_forall in asc, lo. intros c ic.
    split; [auto | apply negb_true_iff; auto].
Qed.
End Fields.

Lemma parse_resume_phone_digits_witness :
  10 <= length (py "5551234567") <= 15
  /\ forallb is_ascii_digit (py "5551234567") = true.
Proof.
  apply (@parse_resume_phone_digits ascii_runtime
           (pdf_world [Some (py "Jane Doe"); None;
                       Some (py "jane@x.org 555 123 4567 SQL")])
           (py "Jane.PDF")).
  vm_compute. auto 10.
Defined.

(** ** The upload gate of app.py *)

(** The text before and after the first [sep] of [s]. *)
Fixpoint break_at (sep : N) (s : pystr) : option (pystr * pystr) :=
  match s with
  | [] => None
  | c :: t =>
      if (c =? sep)%N then Some ([], t)
      else match break_at sep t with
           | Some (a, b) => Some (c :: a, b)
           | None => None
           end
  end.

(** [s.rsplit(sep, 1)] for a one-character separator: [s] cut at its
    last [sep], or [s] alone. *)
Definition rsplit1 (sep : N) (s : pystr) : list pystr :=
  match break_at sep (rev s) with
  | Some (a, b) => [rev b; rev a]
  | None => [s]
  end.

Definition ALLOWED_EXTENSIONS : list pystr := [py "pdf"; py "docx"].

Definition allowed_file `{PyRuntime} (filename : pystr) : bool :=
  contains [ch "."] filename
  && existsb (pystr_eqb (str_lower (nth 1 (rsplit1 (ch ".") filename) [])))
             ALLOWED_EXTENSIONS.

Section UploadGate.
Context `{PyRuntime}.

Lemma contains_single c s : contains [c] s = true <-> In c s.
Proof.
  induction s as [|d t IH]; simpl.
  - split; [discriminate | tauto].
  - rewrite orb_true_iff, IH, andb_true_r, N.eqb_eq. intuition congruence.
Qed.

Lemma break_at_none sep s : ~ In sep s -> break_at sep s = None.
Proof.
  induction s as [|c t IH]; simpl; trivial. intros n.
  destruct (c =? sep)%N eqn:e.
  - apply N.eqb_eq in e. destruct n. auto.
  - rewrite IH by auto. reflexivity.
Qed.

Lemma break_at_first sep a b :
  ~ In sep a -> break_at sep (a ++ sep :: b) = Some (a, b).
Proof.
  induction a as [|c t IH]; simpl; intros n.
  - rewrite N.eqb_refl. reflexivity.
  - destruct (c =? sep)%N eqn:e.
    + apply N.eqb_eq in e. destruct n. auto.
    + rewrite IH by auto. reflexivity.
Qed.

Lemma not_in_rev (c : N) l : ~ In c l -> ~ In c (rev l).
Proof. intros n i. apply n, in_rev, i. Qed.

Lemma rsplit1_last sep a b :
  ~ In sep b -> rsplit1 sep (a ++ sep :: b) = [a; b].
Proof.
  intros n. unfold rsplit1.
  rewrite rev_app_distr. simpl. rewrite <- app_assoc. simpl.
  rewrite break_at_first by (apply not_in_rev, n).
  rewrite !rev_involutive. reflexivity.
Qed.

(** The last occurrence of a character. *)
Lemma last_occurrence (c : N) s :
  In c s -> exists a b, s = a ++ c :: b /\ ~ In c b.
Proof.
  induction s as [|d t IH]; [intros []|]. intros i.
  destruct (in_dec N.eq_dec c t) as [it|nt].
  - destruct (IH it) as (a & b & -> & n). exists (d :: a), b. auto.
  - destruct i as [->|it]; [|tauto]. exists [], t. auto.
Qed.

Lemma allowed_file_cut stem ext :
  ~ In (ch ".") ext ->
  allowed_file (stem ++ ch "." :: ext)
  = pystr_eqb (str_lower ext) (py "pdf") || pystr_eqb (str_lower ext) (py "docx").
Proof.
  intros n. unfold allowed_file.
  rewrite rsplit1_last by exact n.
  assert (contains [ch "."] (stem ++ ch "." :: ext) = true) as ->.
  { apply contains_single, in_or_app. simpl. auto. }
  simpl. rewrite orb_false_r. reflexivity.
Qed.

Lemma allowed_file_no_dot filename :
  ~ In (ch ".") filename -> allowed_file filename = false.
Proof.
  intros n. unfold allowed_file.
  destruct (contains [ch "."] filename) eqn:e; trivial.
  apply contains_single in e. tauto.
Qed.

(** [allowed_file] looks at what follows the last dot only: a name
    without a dot is refused, and a name is accepted exactly when its
    last extension is pdf or docx in some case. *)
Theorem allowed_file_last_extension :
  (forall filename, ~ In (ch ".") filename -> allowed_file filename = false)
  /\ (forall stem ext, ~ In (ch ".") ext ->
      (allowed_file (stem ++ [ch "."] ++ ext) = true
       <-> str_lower ext = py "pdf" \/ str_lower ext = py "docx")).
Proof.
  split.
  - apply allowed_file_no_dot.
  - intros stem ext n. simpl app. rewrite allowed_file_cut by exact n.
    rewrite orb_true_iff, !pystr_eqb_eq. reflexivity.
Qed.

(** *** The gate and the parser test the same extension *)

Lemma starts_with_app p s :
  starts_with p s = true -> exists r, s = p ++ r.
Proof.
  revert s. induction p as [|a p IH]; intros s; simpl.
  - eauto.
  - destruct s as [|b s]; [discriminate|]. intros e.
    apply andb_prop in e. destruct e as [ab e]. apply N.eqb_eq in ab.
    subst b. destruct (IH _ e) as (r & ->). eauto.
Qed.

Lemma starts_with_sep d a b r :
  ~ In d a -> ~ In d b ->
  (starts_with (a ++ [d]) (b ++ d :: r) = true <-> a = b).
Proof.
  revert b. induction a as [|c a IH]; intros [|c' b] na nb; simpl.
  - rewrite N.eqb_refl. tauto.
  - split; [|discriminate]. intros e. apply andb_prop in e.
    destruct e as [e _]. apply N.eqb_eq in e. subst c'. simpl in nb. tauto.
  - split; [|discriminate]. intros e. apply andb_prop in e.
    destruct e as [e _]. apply N.eqb_eq in e. subst c. simpl in na. tauto.
  - rewrite andb_true_iff, N.eqb_eq, IH by (simpl in *; tauto).
    split; [intros [-> ->]; trivial | intros [= -> ->]; auto].
Qed.

Lemma ends_with_ext d e x y :
  ~ In d e -> ~ In d y ->
  (ends_with (d :: e) (x ++ d :: y) = true <-> e = y).
Proof.
  intros ne ny. unfold ends_with. simpl rev.
  rewrite rev_app_distr. simpl. rewrite <- app_assoc. simpl.
  rewrite starts_with_sep by (apply not_in_rev; trivial).
  split; [intros e'; apply (f_equal (@rev N)) in e';
          rewrite !rev_involutive in e'; exact e' | intros ->; reflexivity].
Qed.

Lemma ends_with_needs d e s : ends_with (d :: e) s = true -> In d s.
Proof.
  unfold ends_with. intros st. apply starts_with_app in st.
  destruct st as (r & er). apply in_rev. rewrite er. simpl rev.
  apply in_or_app. left. apply in_or_app. simpl. auto.
Qed.

Lemma ascii_lower_dot c : ascii_lower c = ch "." -> c = ch ".".
Proof.
  unfold ascii_lower, ch. simpl N_of_ascii.
  destruct (is_upper c) eqn:u; trivial. intros e. code_points.
Qed.

Lemma lower_keeps_dots s :
  ~ In (ch ".") s -> ~ In (ch ".") (map ascii_lower s).
Proof.
  intros n i. apply in_map_iff in i. destruct i as (c & e & i).
  apply ascii_lower_dot in e. subst c. tauto.
Qed.

(** On an ASCII file name, [allowed_file] of app.py and the extension
    test of [parse_resume] and of the batch driver give the same answer. *)
Theorem allowed_file_agrees (filename : pystr) :
  forallb is_ascii filename = true ->
  allowed_file filename
  = ends_with (py ".pdf") (str_lower filename)
    || ends_with (py ".docx") (str_lower filename).
Proof.
  intros a. rewrite (str_lower_ascii _ a).
  destruct (in_dec N.eq_dec (ch ".") filename) as [i|n].
  - destruct (last_occurrence _ _ i) as (stem & ext & -> & n).
    rewrite allowed_file_cut by exact n.
    assert (forallb is_ascii ext = true) as ae.
    { rewrite forallb_app in a. apply andb_prop in a. destruct a as [_ a].
      exact a. }
    rewrite (str_lower_ascii _ ae), map_app. simpl map.
    change (ascii_lower (ch ".")) with (ch ".").
    apply lower_keeps_dots in n.
    apply eq_true_iff_eq.
    rewrite !orb_true_iff, !pystr_eqb_eq.
    change (py ".pdf") with (ch "." :: py "pdf").
    change (py ".docx") with (ch "." :: py "docx").
    rewrite !ends_with_ext; trivial.
    + intuition congruence.
    + vm_compute. intuition discriminate.
    + vm_compute. intuition discriminate.
  - rewrite allowed_file_no_dot by exact n. symmetry.
    apply lower_keeps_dots in n. apply orb_false_iff.
    split; apply not_true_iff_false; intros e; apply ends_with_needs in e;
      tauto.
Qed.
End UploadGate.

Lemma allowed_file_agrees_witness :
  allowed_file (py "My.Resume.v2.DocX")
  = ends_with (py ".pdf") (str_lower (py "My.Resume.v2.DocX"))
    || ends_with (py ".docx") (str_lower (py "My.Resume.v2.DocX")).
Proof.
  apply (@allowed_file_agrees ascii_runtime). reflexivity.
Defined.

(** ** The batch driver of batch_processor.py *)

Definition INPUT_DIR : pystr := py "test_files".

(** [os.path.join(a, b)] on POSIX for a directory name [a] without a
    final slash and a name [b] that [os.listdir] or [secure_filename]
    gave, which never starts with a slash. *)
Definition path_join (a b : pystr) : pystr := a ++ py "/" ++ b.

(** What the driver sees of the file system. *)
Record directory := {
  (** [os.listdir(INPUT_DIR)], [None] when the directory does not exist *)
  listing : option (list pystr);
  (** [os.path.isdir] *)
  isdir : pystr -> bool;
  (** the exception that opening or writing the output file raises *)
  dump_error : option pystr
}.

(** [k in d] *)
Definition has_key (k : pystr) (d : dict) : bool :=
  existsb (pystr_eqb k) (keys d).

(** [d[k] = v]: the value of an old key is replaced in place, a new key
    goes last. *)
Fixpoint dict_set (d : dict) (k : pystr) (v : value) : dict :=
  match d with
  | [] => [(k, v)]
  | (k', v') :: t =>
      if pystr_eqb k' k then (k, v) :: t else (k', v') :: dict_set t k v
  end.

(** [d.get(k)] *)
Fixpoint dict_get (k : pystr) (d : dict) : option value :=
  match d with
  | [] => None
  | (k', v) :: t => if pystr_eqb k' k then Some v else dict_get k t
  end.

(** How a run of the driver ends: the three early exits, the list that
    [json.dump] wrote, or the exception caught while saving. *)
Inductive batch_outcome :=
| InputDirMissing
| InputDirEmpty
| NothingProcessed
| Saved (all_results : list dict)
| SaveFailed (e : pystr).

Section Batch.
Context `{PyRuntime}.

(** One round of the loop over [file_list]. *)
Definition process_file (w : world) (fs : directory)
           (all_results : list dict) (filename : pystr) : list dict :=
  let file_path := path_join INPUT_DIR filename in
  if isdir fs file_path
     || negb (ends_with (py ".pdf") (str_lower filename)
              || ends_with (py ".docx") (str_lower filename))
  then all_results
  else
    let result := parse_resume w file_path in
    if has_key (py "error") result then all_results
    else all_results ++ [dict_set result (py "filename") (VStr filename)].

Definition process_all_resumes (w : world) (fs : directory) : batch_outcome :=
  match listing fs with
  | None => InputDirMissing
  | Some [] => InputDirEmpty
  | Some file_list =>
      match fold_left (process_file w fs) file_list [] with
      | [] => NothingProcessed
      | all_results =>
          match dump_error fs with
          | None => Saved all_results
          | Some e => SaveFailed e
          end
      end
  end.

(** The files that end up in the output: not a directory, named like a
    resume, and parsed without the error field. *)
Definition batch_keeps (w : world) (fs : directory) (filename : pystr) : bool :=
  negb (isdir fs (path_join INPUT_DIR filename))
  && (ends_with (py ".pdf") (str_lower filename)
      || ends_with (py ".docx") (str_lower filename))
  && negb (has_key (py "error") (parse_resume w (path_join INPUT_DIR filename))).

(** The record of a file in the output. *)
Definition tagged (w : world) (filename : pystr) : dict :=
  parse_resume w (path_join INPUT_DIR filename)
  ++ [(py "filename", VStr filename)].

Lemma dict_set_new d k v :
  has_key k d = false -> dict_set d k v = d ++ [(k, v)].
Proof.
  unfold has_key, keys. induction d as [|[k' v'] t IH]; simpl; trivial.
  intros e. apply orb_false_iff in e. destruct e as [e1 e2].
  assert (pystr_eqb k' k = false) as ->.
  { apply not_true_iff_false. intros e. apply pystr_eqb_eq in e. subst k'.
    apply not_true_iff_false in e1. apply e1, pystr_eqb_eq. reflexivity. }
  rewrite IH; trivial.
Qed.

Lemma dict_get_new d k v :
  ~ In k (keys d) -> dict_get k (d ++ [(k, v)]) = Some v.
Proof.
  induction d as [|[k' v'] t IH]; simpl.
  - intros _. destruct (pystr_eqb k k) eqn:e; trivial.
    apply not_true_iff_false in e. destruct e. apply pystr_eqb_eq. reflexivity.
  - intros n. destruct (pystr_eqb k' k) eqn:e.
    + apply pystr_eqb_eq in e. tauto.
    + apply IH. tauto.
Qed.

(** A record without the error field is a full record. *)
Lemma parse_resume_full (w : world) (file_path : pystr) :
  has_key (py "error") (parse_resume w file_path) = false ->
  keys (parse_resume w file_path) = parsed_keys
  /\ exists raw_text,
       contains (py "Error") raw_text = false
       /\ (raw_text = extract_text_from_pdf w file_path
           \/ raw_text = extract_text_from_docx w file_path)
       /\ (ends_with (py ".pdf") (str_lower file_path) = true ->
           raw_text = extract_text_from_pdf w file_path).
Proof.
  assert (forall raw, has_key (py "error") (assemble w raw) = false ->
            keys (assemble w raw) = parsed_keys
            /\ contains (py "Error") raw = false) as ok.
  { intros raw. unfold assemble. destruct (contains (py "Error") raw).
    - discriminate.
    - auto. }
  unfold parse_resume.
  destruct (ends_with (py ".pdf") (str_lower file_path)).
  - intros e. destruct (ok _ e). eauto 8.
  - destruct (ends_with (py ".docx") (str_lower file_path)).
    + intros e. destruct (ok _ e). split; trivial.
      eexists. split; [eassumption|]. split; [auto | discriminate].
    + discriminate.
Qed.

Lemma process_file_keeps w fs acc filename :
  process_file w fs acc filename
  = if batch_keeps w fs filename then acc ++ [tagged w filename] else acc.
Proof.
  unfold process_file, batch_keeps, tagged. cbv zeta.
  destruct (isdir fs (path_join INPUT_DIR filename)); [reflexivity|].
  destruct (ends_with (py ".pdf") (str_lower filename)),
    (ends_with (py ".docx") (str_lower filename)); cbn [orb negb andb];
    try reflexivity;
    (destruct (has_key (py "error")
                 (parse_resume w (path_join INPUT_DIR filename))) eqn:e;
     cbn [negb]; [reflexivity|]; f_equal; f_equal; apply dict_set_new;
     destruct (parse_resume_full _ _ e) as [k _];
     unfold has_key; rewrite k; reflexivity).
Qed.

Lemma fold_process_file w fs file_list : forall acc,
  fold_left (process_file w fs) file_list acc
  = acc ++ map (tagged w) (filter (batch_keeps w fs) file_list).
Proof.
  induction file_list as [|f t IH]; intros acc; simpl.
  - rewrite app_nil_r. reflexivity.
  - rewrite IH, process_file_keeps. destruct (batch_keeps w fs f); simpl; trivial.
    rewrite <- app_assoc. reflexivity.
Qed.

Lemma process_all_resumes_saved w fs l :
  process_all_resumes w fs = Saved l ->
  exists file_list,
    listing fs = Some file_list
    /\ l = map (tagged w) (filter (batch_keeps w fs) file_list)
    /\ l <> [] /\ dump_error fs = None.
Proof.
  unfold process_all_resumes.
  destruct (listing fs) as [[|f t]|]; try discriminate.
  rewrite fold_process_file. cbn [app].
  destruct (map (tagged w) (filter (batch_keeps w fs) (f :: t))) as [|d ds] eqn:e;
    [discriminate|].
  destruct (dump_error fs); [discriminate|]. intros [= <-].
  exists (f :: t). split; [reflexivity|]. split; [symmetry; exact e|].
  split; [discriminate | reflexivity].
Qed.

(** What the driver saves is never an empty list: it holds, in the order
    of the directory listing, one record for each entry that is not a
    directory, is named *.pdf or *.docx in some case and parses without
    the error field; the record is the parsed record with the file name
    added last, so that no parsed field is overwritten. *)
Theorem process_all_resumes_records (w : world) (fs : directory)
    (all_results : list dict) :
  process_all_resumes w fs = Saved all_results ->
  all_results <> []
  /\ exists file_list,
       listing fs = Some file_list
       /\ all_results
          = map (fun filename =>
                   parse_resume w (path_join INPUT_DIR filename)
                   ++ [(py "filename", VStr filename)])
                (filter (batch_keeps w fs) file_list).
Proof.
  intros e. apply process_all_resumes_saved in e.
  destruct e as (file_list & el & -> & ne & _). split; trivial.
  exists file_list. auto.
Qed.

(** Every saved record has the seven fields of a parsed record and the
    file name, in this order, and no error field. *)
Theorem process_all_resumes_keys (w : world) (fs : directory)
    (all_results : list dict) (d : dict) :
  process_all_resumes w fs = Saved all_results -> In d all_results ->
  keys d = [py "name"; py "email"; py "phone"; py "urls"; py "skills";
            py "nlp_entities"; py "raw_text_length"; py "filename"]
  /\ has_key (py "error") d = false.
Proof.
  intros e i. apply process_all_resumes_saved in e.
  destruct e as (file_list & _ & -> & _). apply in_map_iff in i.
  destruct i as (f & <- & i). apply filter_In in i. destruct i as [_ k].
  unfold batch_keeps in k. apply andb_prop in k. destruct k as [_ k].
  apply negb_true_iff in k. destruct (parse_resume_full _ _ k) as [ks _].
  unfold tagged, has_key, keys in *. rewrite map_app, ks. split; reflexivity.
Qed.

(** A PDF whose extracted text holds the word "Error" is left out of the
    output: no saved record carries its file name. *)
Theorem process_all_resumes_drops_error_word (w : world) (fs : directory)
    (all_results : list dict) (filename : pystr) :
  process_all_resumes w fs = Saved all_results ->
  ends_with (py ".pdf") (str_lower (path_join INPUT_DIR filename)) = true ->
  contains (py "Error")
           (extract_text_from_pdf w (path_join INPUT_DIR filename)) = true ->
  forall d, In d all_results ->
            dict_get (py "filename") d <> Some (VStr filename).
Proof.
  intros e ext err d i g. apply process_all_resumes_saved in e.
  destruct e as (file_list & _ & -> & _). apply in_map_iff in i.
  destruct i as (f & <- & i). apply filter_In in i. destruct i as [_ k].
  unfold batch_keeps in k. apply andb_prop in k. destruct k as [_ k].
  apply negb_true_iff in k.
  destruct (parse_resume_full _ _ k) as (ks & raw & ok & _ & pdf).
  assert (f = filename) as ->.
  { unfold tagged in g. rewrite dict_get_new in g; [congruence|].
    rewrite ks. simpl. intuition discriminate. }
  rewrite (pdf ext) in ok. congruence.
Qed.
End Batch.

(** A directory with a note, two PDF files and a sub-directory, and the
    world in which the second PDF holds the word "Error". *)
Definition batch_directory : directory := {|
  listing := Some [py "notes.txt"; py "jane.pdf"; py "old.PDF"; py "scans.pdf"];
  isdir := fun p => pystr_eqb p (py "test_files/scans.pdf");
  dump_error := None
|}.

Definition batch_world : world := {|
  pdf_pages := fun p =>
    if pystr_eqb p (py "test_files/jane.pdf") then Opened [Some (py "Jane Doe")]
    else if pystr_eqb p (py "test_files/old.PDF")
         then Opened [Some resume_with_error_word]
         else FileNotFound;
  docx_paragraphs := fun _ => FileNotFound;
  skills_txt := None;
  nlp := None
|}.

Definition batch_record : dict :=
  parse_resume batch_world (py "test_files/jane.pdf")
  ++ [(py "filename", VStr (py "jane.pdf"))].

Lemma batch_sample : process_all_resumes batch_world batch_directory
                     = Saved [batch_record].
Proof. reflexivity. Qed.

Lemma process_all_resumes_records_witness :
  [batch_record] <> []
  /\ exists file_list,
       listing batch_directory = Some file_list
       /\ [batch_record]
          = map (fun filename =>
                   parse_resume batch_world (path_join INPUT_DIR filename)
                   ++ [(py "filename", VStr filename)])
                (filter (batch_keeps batch_world batch_directory) file_list).
Proof.
  apply (@process_all_resumes_records ascii_runtime). exact batch_sample.
Defined.

Lemma process_all_resumes_keys_witness :
  keys batch_record
  = [py "name"; py "email"; py "phone"; py "urls"; py "skills";
     py "nlp_entities"; py "raw_text_length"; py "filename"]
  /\ has_key (py "error") batch_record = false.
Proof.
  apply (@process_all_resumes_keys ascii_runtime batch_world batch_directory
           [batch_record]).
  - exact batch_sample.
  - simpl. auto.
Defined.

Lemma process_all_resumes_drops_error_word_witness :
  process_all_resumes batch_world batch_directory = Saved [batch_record]
  /\ dict_get (py "filename") batch_record <> Some (VStr (py "old.PDF")).
Proof.
  split; [exact batch_sample|].
  apply (@process_all_resumes_drops_error_word ascii_runtime batch_world
           batch_directory [batch_record] (py "old.PDF")).
  - exact batch_sample.
  - reflexivity.
  - reflexivity.
  - simpl. auto.
Defined.

(** ** Exceptions that the parser lets through *)

(** What opening and reading [skills.txt] gives: its lines, a
    [FileNotFoundError], or any other exception (the path is a directory,
    the file may not be read, its bytes are not text). [extract_skills]
    catches the [FileNotFoundError] only. *)
Inductive catalog_file :=
| CatalogLines (lines : list pystr)
| CatalogMissing
| CatalogUnreadable (e : pystr).

(** A call returns a value or raises an exception. *)
Inductive outcome (A : Type) :=
| Returned (a : A)
| Raised (e : pystr).
Arguments Raised {A} e.

(** The exceptions of one run that the parser does not catch: the one,
    other than [FileNotFoundError], that opening or reading [skills.txt]
    raises, and the one that the call of the spaCy pipeline raises;
    [None] where there is none. *)
Record faults := {
  catalog_fault : option pystr;
  nlp_fault : option pystr
}.

Definition no_faults : faults :=
  {| catalog_fault := None; nlp_fault := None |}.

Section Faults.
Context `{PyRuntime}.

(** [extract_skills] under every outcome of its [open]: an exception
    other than [FileNotFoundError] leaves the function. *)
Definition extract_skills_outcome (catalog : catalog_file)
           (cleaned_text : pystr) : outcome (list pystr) :=
  match catalog with
  | CatalogUnreadable e => Raised e
  | CatalogMissing =>
      Returned [py "WARNING: skills.txt missing. Cannot extract skills."]
  | CatalogLines lines =>
      let skill_list := map (fun line => str_lower (strip line)) lines in
      Returned
        (set_to_list
           (filter (fun skill => search (skill_re skill) cleaned_text)
                   skill_list))
  end.

(** The catalog of a run: the exception of the run if it has one, and
    otherwise the file as the world has it. *)
Definition catalog_of (w : world) (fault : option pystr) : catalog_file :=
  match fault with
  | Some e => CatalogUnreadable e
  | None =>
      match skills_txt w with
      | Some lines => CatalogLines lines
      | None => CatalogMissing
      end
  end.

(** [extract_nlp_entities] with the exception of [nlp(cleaned_text)]:
    when no model is loaded the pipeline is not called. *)
Definition extract_nlp_entities_outcome (w : world) (fault : option pystr)
           (cleaned_text : pystr) : outcome value :=
  match nlp w with
  | None => Returned nlp_error
  | Some model =>
      match fault with
      | Some e => Raised e
      | None =>
          let ents := model cleaned_text in
          let education_and_experience_entities :=
            map ent_format
                (filter (fun e => ent_relevant e && ent_substantial e) ents) in
          Returned
            (VList (firstn 5 (set_to_list education_and_experience_entities)))
      end
  end.

(** [parse_resume] with the exceptions passed on: the fields of the
    record are computed in the order of the dict display, and nothing is
    returned when one of them raises. *)
Definition assemble_outcome (w : world) (f : faults)
           (raw_text : pystr) : outcome dict :=
  match contains (py "Error") raw_text with
  | true => Returned [(py "error", VStr raw_text)]
  | false =>
      let cleaned_text := clean_resume_text raw_text in
      let name := extract_name raw_text in
      let email := extract_email cleaned_text in
      let phone := extract_phone_number cleaned_text in
      let urls := extract_urls cleaned_text in
      match extract_skills_outcome (catalog_of w (catalog_fault f))
                                   cleaned_text with
      | Raised e => Raised e
      | Returned skills =>
          match extract_nlp_entities_outcome w (nlp_fault f) cleaned_text with
          | Raised e => Raised e
          | Returned nlp_entities =>
              Returned
                [ (py "name", VStr name);
                  (py "email", opt_str email);
                  (py "phone", opt_str phone);
                  (py "urls", VList urls);
                  (py "skills", VList skills);
                  (py "nlp_entities", nlp_entities);
                  (py "raw_text_length", VInt (length raw_text)) ]
          end
      end
  end.

Definition parse_resume_outcome (w : world) (f : faults)
           (file_path : pystr) : outcome dict :=
  if ends_with (py ".pdf") (str_lower file_path) then
    assemble_outcome w f (extract_text_from_pdf w file_path)
  else if ends_with (py ".docx") (str_lower file_path) then
    assemble_outcome w f (extract_text_from_docx w file_path)
  else Returned [(py "error", VStr unsupported)].

(** The exception that a run raises once it builds the record: that of
    the catalog, or else that of the pipeline when a model is loaded. *)
Definition first_fault (w : world) (f : faults) : option pystr :=
  match catalog_fault f with
  | Some e => Some e
  | None =>
      match nlp w with
      | Some _ => nlp_fault f
      | None => None
      end
  end.

(** Without an exception the functions return what [extract_skills],
    [extract_nlp_entities] and [parse_resume] compute. *)
Lemma extract_skills_outcome_returns (w : world) (text : pystr) :
  extract_skills_outcome (catalog_of w None) text
  = Returned (extract_skills w text).
Proof.
  unfold extract_skills_outcome, catalog_of, extract_skills.
  destruct (skills_txt w); reflexivity.
Qed.

Lemma extract_nlp_entities_outcome_returns (w : world) (text : pystr) :
  extract_nlp_entities_outcome w None text
  = Returned (extract_nlp_entities w text).
Proof.
  unfold extract_nlp_entities_outcome, extract_nlp_entities.
  destruct (nlp w); reflexivity.
Qed.

(** The parser raises exactly when it gets as far as building the record
    (the extension is supported and the extracted text does not hold
    "Error") in a run that has an exception for it; in every other case
    it returns what [parse_resume] computes. *)
Lemma parse_resume_outcome_raises (w : world) (f : faults) (file_path : pystr) :
  parse_resume_outcome w f file_path
  = if has_key (py "error") (parse_resume w file_path)
    then Returned (parse_resume w file_path)
    else match first_fault w f with
         | Some e => Raised e
         | None => Returned (parse_resume w file_path)
         end.
Proof.
  assert (forall raw, assemble_outcome w f raw
                      = if has_key (py "error") (assemble w raw)
                        then Returned (assemble w raw)
                        else match first_fault w f with
                             | Some e => Raised e
                             | None => Returned (assemble w raw)
                             end) as same.
  { intros raw. unfold assemble_outcome, assemble, first_fault.
    destruct (contains (py "Error") raw); [reflexivity|]. cbv zeta.
    change (has_key (py "error") _) with false. cbv iota.
    destruct (catalog_fault f) as [e|]; [reflexivity|].
    rewrite extract_skills_outcome_returns.
    unfold extract_nlp_entities_outcome, extract_nlp_entities.
    destruct (nlp w); [|reflexivity].
    destruct (nlp_fault f); reflexivity. }
  unfold parse_resume_outcome, parse_resume.
  destruct (ends_with (py ".pdf") (str_lower file_path)); [apply same|].
  destruct (ends_with (py ".docx") (str_lower file_path)); [apply same|].
  reflexivity.
Qed.

Lemma parse_resume_outcome_returns (w : world) (file_path : pystr) :
  parse_resume_outcome w no_faults file_path
  = Returned (parse_resume w file_path).
Proof.
  rewrite parse_resume_outcome_raises.
  destruct (has_key _ _), (nlp w) eqn:e; unfold first_fault; simpl;
    rewrite ?e; reflexivity.
Qed.
End Faults.

(** ** The upload endpoint of app.py *)

Definition UPLOAD_FOLDER : pystr := py "temp_uploads".

(** What the handler relies on besides the parser: werkzeug's
    [secure_filename], and the exception, if any, that [file.save] and
    [os.remove] raise on a path. *)
Record server := {
  secure_filename : pystr -> pystr;
  save_error : pystr -> option pystr;
  remove_error : pystr -> option pystr
}.

(** What the handler does to the upload folder. *)
Inductive fs_op :=
| Save (path : pystr)
| Remove (path : pystr).

Record response := {
  body : dict;
  status : nat;
  effects : list fs_op
}.

Definition error_body (message : pystr) : dict := [(py "error", VStr message)].

Section Endpoint.
Context `{PyRuntime}.

(** [upload] is the file name of [request.files['file']], [None] when the
    request has no such part. The [try] block holds the saving, the call
    of [parse_resume] and the removal: an exception of any of the three
    is answered with status 500, and what was done before it stays
    done. *)
Definition parse_resume_endpoint (srv : server) (w : world)
           (f : faults) (upload : option pystr) : response :=
  match upload with
  | None =>
      {| body := error_body (py "No file part in the request");
         status := 400; effects := [] |}
  | Some name =>
      if pystr_eqb name [] || negb (allowed_file name) then
        {| body := error_body
             (py "No selected file or file type not allowed (must be PDF or DOCX)");
           status := 400; effects := [] |}
      else
        let filename := secure_filename srv name in
        let file_path := path_join UPLOAD_FOLDER filename in
        match save_error srv file_path with
        | Some e =>
            {| body := error_body (py "An internal server error occurred: " ++ e);
               status := 500; effects := [] |}
        | None =>
            match parse_resume_outcome w f file_path with
            | Raised e =>
                {| body := error_body
                     (py "An internal server error occurred: " ++ e);
                   status := 500; effects := [Save file_path] |}
            | Returned structured_data =>
                match remove_error srv file_path with
                | Some e =>
                    {| body := error_body
                         (py "An internal server error occurred: " ++ e);
                       status := 500; effects := [Save file_path] |}
                | None =>
                    {| body := structured_data; status := 200;
                       effects := [Save file_path; Remove file_path] |}
                end
            end
        end
  end.

(** The handler answers 200, 400 or 500. With 400 it touched no file and
    the upload was missing, unnamed or refused by [allowed_file]. With 200
    the temporary file was saved and removed again and the body is the
    record that [parse_resume] returned for it, an error record included.
    With 500 the body is an error record and one of the three steps
    raised: the saving, and then no file was written; the parser, and then
    the saved file is left behind; or the removal, and then the saved
    file is left behind and the parsed record is lost. *)
Theorem parse_resume_endpoint_cases (srv : server) (w : world)
    (f : faults) (upload : option pystr) :
  let r := parse_resume_endpoint srv w f upload in
  (status r = 400
   /\ effects r = [] /\ keys (body r) = [py "error"]
   /\ (upload = None
       \/ upload = Some []
       \/ exists name, upload = Some name /\ allowed_file name = false))
  \/ (exists name,
        let file_path := path_join UPLOAD_FOLDER (secure_filename srv name) in
        upload = Some name /\ name <> [] /\ allowed_file name = true
        /\ ((status r = 200
             /\ effects r = [Save file_path; Remove file_path]
             /\ parse_resume_outcome w f file_path = Returned (body r)
             /\ save_error srv file_path = None
             /\ remove_error srv file_path = None)
            \/ (status r = 500 /\ keys (body r) = [py "error"]
                /\ ((effects r = [] /\ save_error srv file_path <> None)
                    \/ (effects r = [Save file_path]
                        /\ save_error srv file_path = None
                        /\ exists e,
                             parse_resume_outcome w f file_path = Raised e)
                    \/ (effects r = [Save file_path]
                        /\ save_error srv file_path = None
                        /\ (exists d, parse_resume_outcome w f file_path
                                      = Returned d)
                        /\ remove_error srv file_path <> None))))).
Proof.
  unfold parse_resume_endpoint. destruct upload as [name|]; cbv zeta.
  - destruct (pystr_eqb name []) eqn:en.
    + left. apply pystr_eqb_eq in en. subst name. cbn [orb]. cbn. auto 6.
    + destruct (allowed_file name) eqn:ea; cbn [orb negb].
      * right. exists name.
        assert (name <> []) as nn.
        { intros ->. apply not_true_iff_false in en. apply en, pystr_eqb_eq.
          reflexivity. }
        repeat (split; [trivial|]).
        destruct (save_error srv _) eqn:es.
        -- right. cbn. repeat split; trivial. left. split; [trivial|discriminate].
        -- destruct (parse_resume_outcome w f _) as [d|e] eqn:ep.
           ++ destruct (remove_error srv _) eqn:er.
              ** right. cbn. repeat split; trivial. right. right.
                 repeat split; trivial; [eauto | discriminate].
              ** left. cbn. auto.
           ++ right. cbn. repeat split; trivial. right. left. eauto.
      * left. cbn. repeat split; trivial. right. right. eauto.
  - left. cbn. auto 6.
Qed.

(** An upload that is accepted and saved in a run where building the
    record raises [e]: when its text is extracted, the handler answers
    500 with [e] in the message and the temporary file is not removed,
    although saving and removing work. *)
Lemma parse_resume_endpoint_parser_raises (srv : server) (w : world)
    (f : faults) (e name : pystr) :
  name <> [] -> allowed_file name = true ->
  save_error srv (path_join UPLOAD_FOLDER (secure_filename srv name)) = None ->
  has_key (py "error")
    (parse_resume w (path_join UPLOAD_FOLDER (secure_filename srv name)))
  = false ->
  first_fault w f = Some e ->
  parse_resume_endpoint srv w f (Some name)
  = {| body := error_body (py "An internal server error occurred: " ++ e);
       status := 500;
       effects := [Save (path_join UPLOAD_FOLDER (secure_filename srv name))] |}.
Proof.
  intros nn ok saved parsed raised. unfold parse_resume_endpoint.
  assert (pystr_eqb name [] = false) as ->.
  { apply not_true_iff_false. intros en. apply pystr_eqb_eq in en. tauto. }
  rewrite ok. cbn [orb negb]. cbv zeta.
  rewrite saved, parse_resume_outcome_raises, parsed, raised. reflexivity.
Qed.

End Endpoint.

(** A server whose [secure_filename] keeps the name and whose folder can
    be written. *)
Definition plain_server : server := {|
  secure_filename := fun name => name;
  save_error := fun _ => None;
  remove_error := fun _ => None
|}.

Lemma parse_resume_endpoint_parser_raises_witness :
  @parse_resume_endpoint ascii_runtime plain_server
    (pdf_world [Some (py "Jane Doe")])
    {| catalog_fault := Some (py "[Errno 13] Permission denied: 'skills.txt'");
       nlp_fault := None |}
    (Some (py "jane.pdf"))
  = {| body := error_body
         (py "An internal server error occurred: [Errno 13] Permission denied: 'skills.txt'");
       status := 500;
       effects := [Save (py "temp_uploads/jane.pdf")] |}.
Proof.
  apply (@parse_resume_endpoint_parser_raises ascii_runtime plain_server
           (pdf_world [Some (py "Jane Doe")])
           {| catalog_fault :=
                Some (py "[Errno 13] Permission denied: 'skills.txt'");
              nlp_fault := None |}
           (py "[Errno 13] Permission denied: 'skills.txt'") (py "jane.pdf")).
  - discriminate.
  - reflexivity.
  - reflexivity.
  - vm_compute. reflexivity.
  - reflexivity.
Defined.


(** ** Fixed points of the normalizer *)

(** [clean_resume_text] leaves a text unchanged exactly when the text is
    normalized: ASCII, without upper-case letters, with single spaces as
    its only whitespace and none at either end. *)
Theorem clean_resume_text_fixed_points `{PyRuntime} (s : pystr) :
  clean_resume_text s = s <-> normalized s.
Proof.
  split.
  - intros <-. apply clean_resume_text_normalized.
  - apply clean_resume_text_fixes.
Qed.

(** ** Entities that are kept *)

(** With the model loaded, when at most 5 different strings come out of
    the spans that pass both tests, none is cut off: the string of every
    such span is in the result. *)
Theorem extract_nlp_entities_keeps_all `{PyRuntime}
    (w : world) (text : pystr) (model : pystr -> list span) :
  nlp w = Some model ->
  length (nodup (list_eq_dec N.eq_dec)
            (map ent_format
               (filter (fun e => ent_relevant e && ent_substantial e)
                       (model text)))) <= 5 ->
  exists l, extract_nlp_entities w text = VList l
    /\ forall e, In e (model text) ->
         ent_relevant e && ent_substantial e = true -> In (ent_format e) l.
Proof.
  intros loaded few. unfold extract_nlp_entities. rewrite loaded.
  eexists. split; [reflexivity|]. intros e i q.
  set (found := map ent_format
                  (filter (fun e => ent_relevant e && ent_substantial e)
                          (model text))) in *.
  assert (length (set_to_list found) <= 5) as short.
  { etransitivity; [|exact few]. apply NoDup_incl_length.
    - apply set_to_list_nodup.
    - intros x ix. apply nodup_In, set_to_list_in, ix. }
  rewrite firstn_all2 by exact short.
  apply set_to_list_in, in_map, filter_In. auto.
Qed.

Lemma extract_nlp_entities_keeps_all_witness :
  exists l,
    extract_nlp_entities
      {| pdf_pages := fun _ => FileNotFound;
         docx_paragraphs := fun _ => FileNotFound;
         skills_txt := None; nlp := Some four_spans |} (py "any text")
    = VList l
    /\ forall e, In e (four_spans (py "any text")) ->
         ent_relevant e && ent_substantial e = true -> In (ent_format e) l.
Proof.
  apply (@extract_nlp_entities_keeps_all ascii_runtime).
  - reflexivity.
  - vm_compute. lia.
Defined.

(** ** Leading blank lines and the name *)

Section MatcherContext.
Context `{PyRuntime}.
Variable A : Type.

(** Two continuations that agree on positions with the same text ahead. *)
Definition same_ahead (k k' : cont A) : Prop :=
  forall q q' cs, rest q = rest q' -> k q cs = k' q' cs.

Lemma rep_ahead (mr : pos -> caps -> cont A -> option A) :
  (forall p p' cs k k', rest p = rest p' -> same_ahead k k' ->
                        mr p cs k = mr p' cs k') ->
  forall n lo p p' cs k k', rest p = rest p' -> same_ahead k k' ->
    rep mr n lo p cs k = rep mr n lo p' cs k'.
Proof.
  intros step. induction n as [|n IH]; intros lo p p' cs k k' e s; simpl.
  - destruct lo; trivial. apply s, e.
  - rewrite (step p p' cs _ (fun q cs' => rep mr n (pred lo) q cs' k') e).
    + rewrite (s p p' cs e). reflexivity.
    + intros q q' cs' eq. apply IH; trivial.
Qed.

(** Without [\b], the matcher looks only at the text ahead. *)
Lemma rmatch_ahead r : context_free r = true ->
  forall p p' cs (k k' : cont A), rest p = rest p' -> same_ahead k k' ->
    rmatch r p cs k = rmatch r p' cs k'.
Proof.
  induction r as [|f|r1 IH1 r2 IH2|r1 IH1 r2 IH2|r IH lo hi|i r IH|];
    simpl; intros cf p p' cs k k' e s.
  - apply s, e.
  - unfold step. rewrite <- e. destruct (rest p) as [|c t]; trivial.
    destruct (f c); trivial. apply s. reflexivity.
  - apply andb_prop in cf. destruct cf as [cf1 cf2].
    apply IH1; trivial. intros q q' cs' eq. apply IH2; trivial.
  - apply andb_prop in cf. destruct cf as [cf1 cf2].
    rewrite (IH1 cf1 p p' cs k k' e s), (IH2 cf2 p p' cs k k' e s).
    reflexivity.
  - rewrite <- e. apply rep_ahead; trivial. intros; apply IH; trivial.
  - apply IH; trivial. intros q q' cs' eq. unfold between.
    rewrite <- e, <- eq. apply s, eq.
  - discriminate.
Qed.
End MatcherContext.

Section NameBlankLines.
Context `{PyRuntime}.

Lemma match_at_ahead r sn sn' s :
  context_free r = true ->
  match_at r (mkpos sn s) = match_at r (mkpos sn' s).
Proof.
  intros cf. unfold match_at. apply rmatch_ahead; trivial.
  intros q q' cs e. simpl. rewrite e. reflexivity.
Qed.

Lemma scan_ahead r : context_free r = true ->
  forall s sn sn' skip, scan r sn s skip = scan r sn' s skip.
Proof.
  intros cf. induction s as [|c t IH]; intros sn sn' skip; simpl.
  - rewrite (match_at_ahead r sn sn' [] cf). reflexivity.
  - rewrite (match_at_ahead r sn sn' (c :: t) cf).
    destruct skip; [|apply IH].
    destruct (match_at r (mkpos sn' (c :: t))) as [[n cs]|];
      [f_equal|]; apply IH.
Qed.

Lemma name_re_needs_upper sn c t :
  is_upper c = false -> match_at name_re (mkpos sn (c :: t)) = None.
Proof.
  intros e. unfold match_at, name_re, upper. simpl. unfold step. simpl.
  rewrite e. reflexivity.
Qed.

Lemma space_not_upper c : isspace c = true -> is_upper c = false.
Proof. intros sc. code_points. Qed.

Lemma scan_name_blank u s : forall sn,
  forallb isspace u = true ->
  scan name_re sn (u ++ s) 0 = scan name_re [] s 0.
Proof.
  induction u as [|c t IH]; intros sn b; simpl.
  - apply scan_ahead. reflexivity.
  - apply andb_prop in b. destruct b as [bc bt].
    rewrite name_re_needs_upper by (apply space_not_upper, bc).
    apply IH, bt.
Qed.

(** Whitespace and blank lines before the text do not change the name
    that [extract_name] returns. *)
Theorem extract_name_leading_blank (blank_lines raw : pystr) :
  forallb isspace blank_lines = true ->
  extract_name (blank_lines ++ raw) = extract_name raw.
Proof.
  intros b. unfold extract_name.
  assert (strip (blank_lines ++ raw) = strip raw) as ->.
  { unfold strip. rewrite lstrip_spaces by exact b. reflexivity. }
  assert (findall name_re (blank_lines ++ raw) = findall name_re raw) as ->.
  { unfold findall. rewrite scan_name_blank by exact b. reflexivity. }
  reflexivity.
Qed.
End NameBlankLines.

Lemma extract_name_leading_blank_witness :
  extract_name (([LF; SP; SP; LF; 9]%N) ++ py "jane doe")
  = extract_name (py "jane doe").
Proof.
  apply (@extract_name_leading_blank ascii_runtime). reflexivity.
Defined.

(** ** The skills and the catalog file *)

(** C8, as the code has it: with the catalog loaded, [extract_skills]
    returns exactly the lower-cased catalog entries that occur verbatim as
    a whole word in the text, so every entry returned is in the catalog
    and is such a word; with [skills.txt] missing (the [open] raises
    [FileNotFoundError]) it returns the one warning string; every other
    exception of opening or reading the file is raised to the caller. *)
Theorem extract_skills_outcome_catalog_words `{PyRuntime}
    (catalog : catalog_file) (text : pystr) :
  (forall lines, catalog = CatalogLines lines ->
   exists skills,
     extract_skills_outcome catalog text = Returned skills
     /\ forall skill,
          In skill skills <->
          In skill (map (fun line => str_lower (strip line)) lines)
          /\ whole_word skill text)
  /\ (catalog = CatalogMissing ->
      extract_skills_outcome catalog text
      = Returned [py "WARNING: skills.txt missing. Cannot extract skills."])
  /\ (forall e, catalog = CatalogUnreadable e ->
      extract_skills_outcome catalog text = Raised e).
Proof.
  split; [|split].
  - intros lines ->. eexists. split; [reflexivity|]. intros skill.
    rewrite set_to_list_in, filter_In, search_skill. reflexivity.
  - intros ->. reflexivity.
  - intros e ->. reflexivity.
Qed.

(** C8 as stated fails: a [skills.txt] that exists but may not be read
    cannot be loaded, and [extract_skills] then raises the exception of
    [open] instead of returning a warning. *)
Lemma extract_skills_outcome_unreadable_raises :
  ~ (exists warning,
       extract_skills_outcome
         (CatalogUnreadable (py "[Errno 13] Permission denied: 'skills.txt'"))
         (py "python developer")
       = Returned [warning]).
Proof. intros (warning & e). discriminate e. Qed.

(** ** The greedy match of the fallback pattern *)

Section Greedy.
Context `{PyRuntime}.
Variable A : Type.










End Greedy.

Section GreedyName.
Context `{PyRuntime}.









(** *** The match is the longest Title-Case sequence at its start *)







(** No Title-Case sequence that starts where [m] starts is longer. *)
Definition longest (L : pystr -> Prop) (s u m : pystr) : Prop :=
  forall m' v', s = u ++ m' ++ v' -> L m' -> length m' <= length m.


Lemma app_same_length (a a' b b' : pystr) :
  a ++ b = a' ++ b' -> length a = length a' -> a = a' /\ b = b'.
Proof.
  revert a'. induction a as [|c t IH]; intros [|c' t'] e l;
    try discriminate l; simpl in e.
  - auto.
  - injection e as <- e. injection l as l.
    destruct (IH _ e l) as [<- <-]. auto.
Qed.

(** What is leftmost and longest is one piece of the text. *)
Lemma leftmost_longest_unique (L : pystr -> Prop) s u m v u' m' v' :
  occurrence L s u m v -> leftmost L s u -> longest L s u m ->
  occurrence L s u' m' v' -> leftmost L s u' -> longest L s u' m' ->
  u = u' /\ m = m'.
Proof.
  intros o lm lg o' lm' lg'.
  assert (length u = length u') as lu
      by (apply Nat.le_antisymm; [apply (lm _ _ _ o') | apply (lm' _ _ _ o)]).
  destruct o as [e l], o' as [e' l'].
  assert (u ++ m ++ v = u' ++ m' ++ v') as eq by congruence.
  destruct (app_same_length _ _ _ _ eq lu) as [<- eq'].
  split; trivial.
  assert (length m = length m') as lml
      by (apply Nat.le_antisymm; [apply (lg' _ _ e l) | apply (lg _ _ e' l')]).
  apply (app_same_length _ _ _ _ eq' lml).
Qed.

(** *** Tokens *)

(** The number of maximal runs of characters that are not whitespace;
    [in_token] says that the character before was part of one. *)
Fixpoint count_tokens (in_token : bool) (s : pystr) : nat :=
  match s with
  | [] => 0
  | c :: t =>
      if isspace c then count_tokens false t
      else (if in_token then 0 else 1) + count_tokens true t
  end.

Definition token_count (s : pystr) : nat := count_tokens false s.


End GreedyName.


(** The fallback on a text whose first line is too short to be a name:
    the whole of the three words, not a shorter piece of them. *)
Example extract_name_takes_longest :
  @extract_name ascii_runtime (py "CV
Mary Ann Vandyke, engineer")
  = py "Mary Ann Vandyke".
Proof. vm_compute. reflexivity. Qed.

Example token_count_sample :
  token_count (py "  Senior  Software Engineer ") = 3.
Proof. reflexivity. Qed.
